(** * Serenity: the live audio session hook ([src/hooks/useGeminiLive.ts])

    A shallow embedding of the [useGeminiLive] hook: its React state, its
    refs, the browser objects each [connect] call creates, and the handlers
    the hook installs ([onopen], [onmessage], [onclose], [onerror],
    [onaudioprocess], [onended], the animation-frame loop), followed by the
    properties of the playback scheduler and of the session's handlers.

    Conventions of the model:
    - every handler runs to completion: an [await] is not a point where
      another handler is interleaved;
    - a JavaScript [number] is an abstract type with the three operations
      the hook applies to it ([0], [+], [<]); no arithmetic law is assumed,
      so every statement holds for IEEE doubles as it holds for rationals;
    - [utils/audioUtils] is not part of the sources: [createPcmBlob] and the
      composition of [base64ToUint8Array] with [decodeAudioData] are taken as
      parameters of the hook. *)

From Stdlib Require Import ZArith QArith Qabs Lqa DecimalString.
From stdpp Require Import base option list strings.

Set Default Proof Using "Type".
Local Open Scope string_scope.

(** ** JavaScript numbers *)

Class JsNumber (T : Type) := {
  num_zero : T;
  num_add : T → T → T;
  num_lt : T → T → bool
}.

(** Exact rationals, used for the concrete scenarios. *)
#[export] Instance Q_JsNumber : JsNumber Q := {|
  num_zero := 0%Q;
  num_add := Qplus;
  num_lt := fun a b => negb (Qle_bool b a)
|}.

(** ** Types of [../types] as the hook uses them *)

Record LiveSessionState := mkLiveSessionState {
  isConnected : bool;
  isConnecting : bool;
  error : option string
}.

Record AudioVolumeState (T : Type) := mkAudioVolumeState {
  inputVolume : T;
  outputVolume : T
}.
Arguments mkAudioVolumeState {T} _ _.
Arguments inputVolume {T} _.
Arguments outputVolume {T} _.

(** [VoiceName] is a union of string literals. *)
Definition VoiceName := string.

(** The part of a [LiveServerMessage] that [onmessage] reads:
    [serverContent?.modelTurn?.parts?.[0]?.inlineData?.data] ([None] when the
    optional chain yields [undefined]) and [serverContent?.interrupted]. *)
Record LiveServerMessage := mkMessage {
  inlineData : option string;
  interrupted : bool
}.

(** ** Browser objects *)

(** What one call of [connect] creates and its callbacks close over: the
    microphone [stream], [inputCtx] with its [processor], [outputCtx], and the
    live session behind [sessionPromise]. *)
Record Pipeline := mkPipeline {
  streamLive : bool;          (* the MediaStream of getUserMedia is live *)
  inputCtxRunning : bool;     (* inputCtx has not been closed *)
  outputCtxRunning : bool;    (* outputCtx has not been closed *)
  onaudioprocess : bool       (* processor.onaudioprocess is installed *)
}.

(** An [AudioBufferSourceNode] created by [onmessage]. *)
Record Source (T : Type) := mkSource {
  srcPipeline : nat;          (* the outputCtx it belongs to *)
  srcStart : T;               (* argument of source.start *)
  srcDuration : T;            (* audioBuffer.duration *)
  srcStopped : bool;          (* source.stop() has been called *)
  srcEnded : bool             (* its ended event has been delivered *)
}.
Arguments mkSource {T} _ _ _ _ _.
Arguments srcPipeline {T} _.
Arguments srcStart {T} _.
Arguments srcDuration {T} _.
Arguments srcStopped {T} _.
Arguments srcEnded {T} _.

Inductive Side := InputSide | OutputSide.

(** Calls that leave the hook. *)
Inductive Effect (T Blob : Type) :=
| ConsoleLog (msg : string)
| ConsoleError (msg : string)
| GetUserMedia
| LiveConnect (p : nat) (voice : VoiceName)
| CloseContext (p : nat) (side : Side)
| StartSource (i : nat) (when : T)
| StopSource (i : nat)
| RequestAnimationFrame (id : nat)
| CancelAnimationFrame (id : nat)
| SendRealtimeInput (p : nat) (media : Blob).
Arguments ConsoleLog {T Blob} _.
Arguments ConsoleError {T Blob} _.
Arguments GetUserMedia {T Blob}.
Arguments LiveConnect {T Blob} _ _.
Arguments CloseContext {T Blob} _ _.
Arguments StartSource {T Blob} _ _.
Arguments StopSource {T Blob} _.
Arguments RequestAnimationFrame {T Blob} _.
Arguments CancelAnimationFrame {T Blob} _.
Arguments SendRealtimeInput {T Blob} _ _.

(** ** The state of the hook and of the browser around it *)

Record Sys (T : Type) := mkSys {
  (* useState *)
  state : LiveSessionState;
  volumes : AudioVolumeState T;
  (* useRef; inputSourceRef, processorRef and outputGainRef are written by
     connect and never read, they are left out *)
  audioContextRef : option nat;
  outputContextRef : option nat;
  nextStartTimeRef : T;
  activeSourcesRef : list nat;      (* a JS Set, in insertion order *)
  inputAnalyserRef : option nat;
  outputAnalyserRef : option nat;
  animationFrameRef : option nat;
  (* browser *)
  pipelines : list Pipeline;
  sources : list (Source T);
  pendingFrames : list nat;         (* animation-frame callbacks not yet run *)
  nextFrameId : nat
}.
Arguments mkSys {T} _ _ _ _ _ _ _ _ _ _ _ _ _.
Arguments state {T} _.
Arguments volumes {T} _.
Arguments audioContextRef {T} _.
Arguments outputContextRef {T} _.
Arguments nextStartTimeRef {T} _.
Arguments activeSourcesRef {T} _.
Arguments inputAnalyserRef {T} _.
Arguments outputAnalyserRef {T} _.
Arguments animationFrameRef {T} _.
Arguments pipelines {T} _.
Arguments sources {T} _.
Arguments pendingFrames {T} _.
Arguments nextFrameId {T} _.

(** ** Handlers: state, emitted calls, and abrupt completion *)

(** A handler either returns or throws (for an [async] function: its promise
    is rejected). What it wrote before throwing stays written. *)
Inductive Completion := Returned | Threw.

Record Result (T Blob : Type) := mkResult {
  completion : Completion;
  final : Sys T;
  emitted : list (Effect T Blob)
}.
Arguments mkResult {T Blob} _ _ _.
Arguments completion {T Blob} _.
Arguments final {T Blob} _.
Arguments emitted {T Blob} _.

Definition Handler (T Blob : Type) := Sys T → Result T Blob.

Section Handlers.
Context {T Blob : Type}.

Definition skip : Handler T Blob := fun s => mkResult Returned s [].
Definition throw : Handler T Blob := fun s => mkResult Threw s [].
Definition emit (e : Effect T Blob) : Handler T Blob :=
  fun s => mkResult Returned s [e].
Definition modify (f : Sys T → Sys T) : Handler T Blob :=
  fun s => mkResult Returned (f s) [].

(** Sequencing: the second statement runs only when the first returned. *)
Definition andThen (h1 h2 : Handler T Blob) : Handler T Blob :=
  fun s =>
    let r1 := h1 s in
    match completion r1 with
    | Threw => r1
    | Returned =>
        let r2 := h2 (final r1) in
        mkResult (completion r2) (final r2) (emitted r1 ++ emitted r2)
    end.

(** [try { h } catch (e) { k }] *)
Definition tryCatch (h k : Handler T Blob) : Handler T Blob :=
  fun s =>
    let r1 := h s in
    match completion r1 with
    | Returned => r1
    | Threw =>
        let r2 := k (final r1) in
        mkResult (completion r2) (final r2) (emitted r1 ++ emitted r2)
    end.

(** [xs.forEach(f)], for callbacks that leave the collection itself alone. *)
Fixpoint forEach {A : Type} (xs : list A) (f : A → Handler T Blob)
  : Handler T Blob :=
  match xs with
  | [] => skip
  | x :: xs' => andThen (f x) (forEach xs' f)
  end.

(** *** Field updates *)

Definition setState (f : LiveSessionState → LiveSessionState) (s : Sys T) :=
  mkSys (f (state s)) (volumes s) (audioContextRef s) (outputContextRef s)
    (nextStartTimeRef s) (activeSourcesRef s) (inputAnalyserRef s)
    (outputAnalyserRef s) (animationFrameRef s) (pipelines s) (sources s)
    (pendingFrames s) (nextFrameId s).

Definition setVolumes (v : AudioVolumeState T) (s : Sys T) :=
  mkSys (state s) v (audioContextRef s) (outputContextRef s)
    (nextStartTimeRef s) (activeSourcesRef s) (inputAnalyserRef s)
    (outputAnalyserRef s) (animationFrameRef s) (pipelines s) (sources s)
    (pendingFrames s) (nextFrameId s).

Definition setAudioContextRef (c : option nat) (s : Sys T) :=
  mkSys (state s) (volumes s) c (outputContextRef s)
    (nextStartTimeRef s) (activeSourcesRef s) (inputAnalyserRef s)
    (outputAnalyserRef s) (animationFrameRef s) (pipelines s) (sources s)
    (pendingFrames s) (nextFrameId s).

Definition setOutputContextRef (c : option nat) (s : Sys T) :=
  mkSys (state s) (volumes s) (audioContextRef s) c
    (nextStartTimeRef s) (activeSourcesRef s) (inputAnalyserRef s)
    (outputAnalyserRef s) (animationFrameRef s) (pipelines s) (sources s)
    (pendingFrames s) (nextFrameId s).

Definition setNextStartTimeRef (t : T) (s : Sys T) :=
  mkSys (state s) (volumes s) (audioContextRef s) (outputContextRef s)
    t (activeSourcesRef s) (inputAnalyserRef s)
    (outputAnalyserRef s) (animationFrameRef s) (pipelines s) (sources s)
    (pendingFrames s) (nextFrameId s).

Definition setActiveSourcesRef (a : list nat) (s : Sys T) :=
  mkSys (state s) (volumes s) (audioContextRef s) (outputContextRef s)
    (nextStartTimeRef s) a (inputAnalyserRef s)
    (outputAnalyserRef s) (animationFrameRef s) (pipelines s) (sources s)
    (pendingFrames s) (nextFrameId s).

Definition setAnalyserRefs (i o : option nat) (s : Sys T) :=
  mkSys (state s) (volumes s) (audioContextRef s) (outputContextRef s)
    (nextStartTimeRef s) (activeSourcesRef s) i o
    (animationFrameRef s) (pipelines s) (sources s)
    (pendingFrames s) (nextFrameId s).

Definition setAnimationFrameRef (a : option nat) (s : Sys T) :=
  mkSys (state s) (volumes s) (audioContextRef s) (outputContextRef s)
    (nextStartTimeRef s) (activeSourcesRef s) (inputAnalyserRef s)
    (outputAnalyserRef s) a (pipelines s) (sources s)
    (pendingFrames s) (nextFrameId s).

Definition setPipelines (ps : list Pipeline) (s : Sys T) :=
  mkSys (state s) (volumes s) (audioContextRef s) (outputContextRef s)
    (nextStartTimeRef s) (activeSourcesRef s) (inputAnalyserRef s)
    (outputAnalyserRef s) (animationFrameRef s) ps (sources s)
    (pendingFrames s) (nextFrameId s).

Definition setSources (ss : list (Source T)) (s : Sys T) :=
  mkSys (state s) (volumes s) (audioContextRef s) (outputContextRef s)
    (nextStartTimeRef s) (activeSourcesRef s) (inputAnalyserRef s)
    (outputAnalyserRef s) (animationFrameRef s) (pipelines s) ss
    (pendingFrames s) (nextFrameId s).

Definition setFrames (pending : list nat) (next : nat) (s : Sys T) :=
  mkSys (state s) (volumes s) (audioContextRef s) (outputContextRef s)
    (nextStartTimeRef s) (activeSourcesRef s) (inputAnalyserRef s)
    (outputAnalyserRef s) (animationFrameRef s) (pipelines s) (sources s)
    pending next.

End Handlers.

Declare Scope handler_scope.
Notation "h1 ;; h2" := (andThen h1 h2)
  (at level 100, h2 at level 200, right associativity) : handler_scope.
Delimit Scope handler_scope with handler.
Local Open Scope handler_scope.

(** ** The hook *)

(** JavaScript truthiness of a string: the empty string is falsy. *)
Definition truthy (str : string) : bool :=
  match str with
  | EmptyString => false
  | String _ _ => true
  end.

(** [set.add(x)] and [set.delete(x)] on a Set kept in insertion order. *)
Definition setAdd (x : nat) (xs : list nat) : list nat :=
  if decide (x ∈ xs) then xs else xs ++ [x].
Definition setDelete (x : nat) (xs : list nat) : list nat :=
  filter (λ y, y ≠ x) xs.

Section Hook.
Context {T : Type} `{JsNumber T} {Blob : Type}.

(** [createPcmBlob] of [utils/audioUtils]. *)
Variable createPcmBlob : list T → Blob.

(** [base64ToUint8Array] followed by [decodeAudioData], both of
    [utils/audioUtils]: the duration of the decoded buffer, or [None] when one
    of them throws. *)
Variable decodeAudio : string → option T.

Local Abbreviation Sys := (Sys T).
Local Abbreviation Handler := (Handler T Blob).
Local Abbreviation Result := (Result T Blob).
Local Abbreviation Effect := (Effect T Blob).

Definition initial : Sys :=
  mkSys (mkLiveSessionState false false None)
    (mkAudioVolumeState num_zero num_zero)
    None None num_zero [] None None None [] [] [] 1.

(** *** Browser operations *)

(** [ctx.close()]: the promise is rejected when the context is already
    closed. *)
Definition closeSide (side : Side) (pl : Pipeline) : Pipeline :=
  match side with
  | InputSide =>
      mkPipeline (streamLive pl) false (outputCtxRunning pl) (onaudioprocess pl)
  | OutputSide =>
      mkPipeline (streamLive pl) (inputCtxRunning pl) false (onaudioprocess pl)
  end.

Definition running (side : Side) (pl : Pipeline) : bool :=
  match side with
  | InputSide => inputCtxRunning pl
  | OutputSide => outputCtxRunning pl
  end.

Definition closeContext (p : nat) (side : Side) : Handler :=
  fun s =>
    match pipelines s !! p with
    | Some pl =>
        if running side pl
        then (emit (CloseContext p side) ;;
              modify (setPipelines (<[p := closeSide side pl]> (pipelines s)))) s
        else throw s
    | None => throw s
    end.

(** [source.stop()]: throws for a node that was never started; every node
    [onmessage] creates is started before it is stored. *)
Definition markStopped (src : Source T) : Source T :=
  mkSource (srcPipeline src) (srcStart src) (srcDuration src) true (srcEnded src).

Definition stopSource (i : nat) : Handler :=
  fun s =>
    match sources s !! i with
    | Some src =>
        (emit (StopSource i) ;;
         modify (setSources (<[i := markStopped src]> (sources s)))) s
    | None => throw s
    end.

(** [cancelAnimationFrame(id)] *)
Definition cancelAnimationFrame (id : nat) : Handler :=
  emit (CancelAnimationFrame id) ;;
  modify (fun s => setFrames (filter (λ y, y ≠ id) (pendingFrames s))
                     (nextFrameId s) s).

(** *** [disconnect] (lines 38-66) *)

Definition contextRef (side : Side) (s : Sys) : option nat :=
  match side with
  | InputSide => audioContextRef s
  | OutputSide => outputContextRef s
  end.

Definition setContextRef (side : Side) (c : option nat) (s : Sys) : Sys :=
  match side with
  | InputSide => setAudioContextRef c s
  | OutputSide => setOutputContextRef c s
  end.

(** Lines 40-43 for [audioContextRef], lines 44-47 for [outputContextRef]:
    [if (ref.current) { await ref.current.close(); ref.current = null; }] *)
Definition closeAndForget (side : Side) : Handler :=
  fun s =>
    match contextRef side s with
    | Some p => (closeContext p side ;; modify (setContextRef side None)) s
    | None => skip s
    end.

(** Lines 50-55, and again lines 200-203 *)
Definition stopAllActive : Handler :=
  (fun s => forEach (activeSourcesRef s)
              (fun source => tryCatch (stopSource source) skip) s) ;;
  modify (setActiveSourcesRef []).

(** Lines 58-61; the id 0 is falsy *)
Definition stopAnalyzing : Handler :=
  fun s =>
    match animationFrameRef s with
    | Some (S n) => (cancelAnimationFrame (S n) ;;
                     modify (setAnimationFrameRef None)) s
    | _ => skip s
    end.

Definition disconnect : Handler :=
  (* 1. Close audio contexts *)
  closeAndForget InputSide ;;
  closeAndForget OutputSide ;;
  (* 2. Stop all active audio sources *)
  stopAllActive ;;
  (* 3. Stop analyzing *)
  stopAnalyzing ;;
  (* 4. Update state *)
  modify (setState (fun prev =>
            mkLiveSessionState false false (error prev))) ;;
  modify (setVolumes (mkAudioVolumeState num_zero num_zero)).

(** *** [updateVolumes] (lines 69-89)

    [vin] and [vout] are what the two analysers yield at this instant
    (average of the byte frequency data over 255). *)
Definition updateVolumes (vin vout : T) : Handler :=
  modify (fun s =>
    setVolumes (mkAudioVolumeState
      (match inputAnalyserRef s with Some _ => vin | None => num_zero end)
      (match outputAnalyserRef s with Some _ => vout | None => num_zero end))
      s) ;;
  (fun s =>
     let id := nextFrameId s in
     (emit (RequestAnimationFrame id) ;;
      modify (setFrames (pendingFrames s ++ [id]) (S id)) ;;
      modify (setAnimationFrameRef (Some id))) s).

(** *** [connect] (lines 92-223)

    [apiKey] tells whether [process.env.API_KEY] is truthy and [micGranted]
    whether [getUserMedia] resolves; [vin] and [vout] feed the first, direct
    call of [updateVolumes]. *)
Definition newPipeline : Pipeline := mkPipeline true true true false.

Definition connect (voiceName : VoiceName) (apiKey micGranted : bool)
    (vin vout : T) : Handler :=
  if negb apiKey then
    modify (setState (fun prev =>
      mkLiveSessionState (isConnected prev) (isConnecting prev)
        (Some "API Key not found in environment")))
  else
    tryCatch
      (modify (setState (fun prev =>
         mkLiveSessionState (isConnected prev) true None)) ;;
       (* 1. Setup Audio Input (Microphone) *)
       emit GetUserMedia ;;
       (if micGranted then skip else throw) ;;
       (fun s =>
          let p := length (pipelines s) in
          (modify (setPipelines (pipelines s ++ [newPipeline])) ;;
           modify (setAudioContextRef (Some p)) ;;
           (* 2. Setup Audio Output (Speaker) *)
           modify (setOutputContextRef (Some p)) ;;
           modify (setAnalyserRefs (Some p) (Some p)) ;;
           modify (setNextStartTimeRef num_zero) ;;
           (* Start volume visualization loop *)
           updateVolumes vin vout ;;
           (* 3. Initialize Gemini Client *)
           emit (LiveConnect p voiceName)) s))
      (emit (ConsoleError "Failed to connect") ;;
       modify (setState (fun prev =>
         mkLiveSessionState (isConnected prev) false
           (Some "Failed to access microphone or connect.")))).

(** *** The callbacks of pipeline [p] (lines 157-216) *)

Definition installOnaudioprocess (pl : Pipeline) : Pipeline :=
  mkPipeline (streamLive pl) (inputCtxRunning pl) (outputCtxRunning pl) true.

Definition onopen (p : nat) : Handler :=
  emit (ConsoleLog "Gemini Live Session Opened") ;;
  modify (setState (fun prev =>
    mkLiveSessionState true false (error prev))) ;;
  (* Start processing audio *)
  modify (fun s => setPipelines (alter installOnaudioprocess p (pipelines s)) s).

(** [processor.onaudioprocess] of pipeline [p], once installed. *)
Definition audioprocess (p : nat) (inputData : list T) : Handler :=
  emit (SendRealtimeInput p (createPcmBlob inputData)).

(** Lines 173-195: handle audio output. *)
Definition handleAudioOutput (p : nat) (message : LiveServerMessage)
    (currentTime : T) : Handler :=
  match inlineData message with
  | Some base64Audio =>
      if truthy base64Audio then
        match decodeAudio base64Audio with
        | None => throw
        | Some duration =>
            (* Gapless playback logic *)
            (fun s =>
               if num_lt (nextStartTimeRef s) currentTime
               then modify (setNextStartTimeRef currentTime) s
               else skip s) ;;
            (fun s =>
               let source := length (sources s) in
               let start := nextStartTimeRef s in
               (modify (setSources
                  (sources s ++ [mkSource p start duration false false])) ;;
                emit (StartSource source start) ;;
                modify (setNextStartTimeRef (num_add start duration)) ;;
                modify (fun s' => setActiveSourcesRef
                          (setAdd source (activeSourcesRef s')) s')) s)
        end
      else skip
  | None => skip
  end.

(** Lines 197-205: handle interruption. *)
Definition handleInterruption (message : LiveServerMessage) : Handler :=
  if interrupted message then
    emit (ConsoleLog "Interrupted by user") ;;
    stopAllActive ;;
    modify (setNextStartTimeRef num_zero)
  else skip.

Definition onmessage (p : nat) (message : LiveServerMessage)
    (currentTime : T) : Handler :=
  handleAudioOutput p message currentTime ;;
  handleInterruption message.

Definition onclose (p : nat) : Handler :=
  emit (ConsoleLog "Gemini Live Session Closed") ;;
  disconnect.

Definition onerror (p : nat) : Handler :=
  emit (ConsoleError "Gemini Live Error") ;;
  modify (setState (fun prev =>
    mkLiveSessionState (isConnected prev) (isConnecting prev)
      (Some "Connection error occurred."))) ;;
  disconnect.

(** [source.onended] of source [i] (lines 192-194); the browser delivers the
    event once per source. *)
Definition markEnded (src : Source T) : Source T :=
  mkSource (srcPipeline src) (srcStart src) (srcDuration src)
    (srcStopped src) true.

Definition onended (i : nat) : Handler :=
  modify (fun s => setActiveSourcesRef (setDelete i (activeSourcesRef s)) s).

Definition sourceEnds (i : nat) : Handler :=
  modify (fun s => setSources (alter markEnded i (sources s)) s) ;;
  onended i.

(** One turn of the animation-frame loop: callback [id] leaves the pending
    list and runs [updateVolumes]. *)
Definition animationFrame (id : nat) (vin vout : T) : Handler :=
  modify (fun s => setFrames (filter (λ y, y ≠ id) (pendingFrames s))
                     (nextFrameId s) s) ;;
  updateVolumes vin vout.

(** *** Events and runs *)

Inductive Event :=
| Connect (voiceName : VoiceName) (apiKey micGranted : bool) (vin vout : T)
| Disconnect
| OnOpen (p : nat)
| OnMessage (p : nat) (message : LiveServerMessage) (currentTime : T)
| OnClose (p : nat)
| OnError (p : nat)
| AudioProcess (p : nat) (inputData : list T)
| SourceEnded (i : nat)
| AnimationFrame (id : nat) (vin vout : T).

Definition handle (e : Event) : Handler :=
  match e with
  | Connect voiceName apiKey micGranted vin vout =>
      connect voiceName apiKey micGranted vin vout
  | Disconnect => disconnect
  | OnOpen p => onopen p
  | OnMessage p message currentTime => onmessage p message currentTime
  | OnClose p => onclose p
  | OnError p => onerror p
  | AudioProcess p inputData => audioprocess p inputData
  | SourceEnded i => sourceEnds i
  | AnimationFrame id vin vout => animationFrame id vin vout
  end.

(** What the browser and the remote service can deliver in state [s]: the
    callbacks of a pipeline exist once [connect] created it, [audioprocess]
    fires on a running input context whose processor has its handler, a
    source ends once, and an animation frame runs while it is pending. The
    two operations the hook exports can be called at any time. *)
Definition enabled (s : Sys) (e : Event) : bool :=
  match e with
  | Connect _ _ _ _ _ | Disconnect => true
  | OnOpen p | OnMessage p _ _ | OnClose p | OnError p =>
      bool_decide (p < length (pipelines s))
  | AudioProcess p _ =>
      match pipelines s !! p with
      | Some pl => inputCtxRunning pl && onaudioprocess pl
      | None => false
      end
  | SourceEnded i =>
      match sources s !! i with
      | Some src => negb (srcEnded src)
      | None => false
      end
  | AnimationFrame id _ _ => bool_decide (id ∈ pendingFrames s)
  end.

(** The state after a sequence of events, each admitted by [ok]. *)
Fixpoint run (ok : Sys → Event → bool) (s : Sys) (es : list Event)
  : option Sys :=
  match es with
  | [] => Some s
  | e :: es' => if ok s e then run ok (final (handle e s)) es' else None
  end.

(** *** Notions the properties are stated with *)

(** A ref to an audio context designates a context that is still running
    (then [close()] on it resolves). *)
Definition refRunning (side : Side) (ref : option nat)
    (ps : list Pipeline) : Prop :=
  ∀ p, ref = Some p → ∃ pl, ps !! p = Some pl ∧ running side pl = true.

Definition refsRunning (s : Sys) : Prop :=
  refRunning InputSide (audioContextRef s) (pipelines s) ∧
  refRunning OutputSide (outputContextRef s) (pipelines s).

(** Every member of ActiveSources is a source that has neither finished nor
    been stopped. *)
Definition activeSourcesLive (s : Sys) : Prop :=
  ∀ i, i ∈ activeSourcesRef s →
    ∃ src, sources s !! i = Some src ∧
           srcStopped src = false ∧ srcEnded src = false.

(** The sources after [stop()] was called on each of [ids]. *)
Definition stopOne (ss : list (Source T)) (i : nat) : list (Source T) :=
  match ss !! i with
  | Some src => <[i := markStopped src]> ss
  | None => ss
  end.

Definition stopAll (ids : list nat) (ss : list (Source T)) : list (Source T) :=
  foldl stopOne ss ids.

(** The pipelines after the context a ref designates was closed. *)
Definition closeRef (side : Side) (ref : option nat)
    (ps : list Pipeline) : list Pipeline :=
  match ref with
  | Some p =>
      match ps !! p with
      | Some pl => <[p := closeSide side pl]> ps
      | None => ps
      end
  | None => ps
  end.

(** The state a returning [disconnect] leaves, and the calls it made. *)
Definition disconnected (s : Sys) : Sys :=
  mkSys (mkLiveSessionState false false (error (state s)))
    (mkAudioVolumeState num_zero num_zero)
    None None (nextStartTimeRef s) []
    (inputAnalyserRef s) (outputAnalyserRef s)
    (match animationFrameRef s with Some (S _) => None | a => a end)
    (closeRef OutputSide (outputContextRef s)
       (closeRef InputSide (audioContextRef s) (pipelines s)))
    (stopAll (activeSourcesRef s) (sources s))
    (match animationFrameRef s with
     | Some (S n) => filter (λ y, y ≠ S n) (pendingFrames s)
     | _ => pendingFrames s
     end)
    (nextFrameId s).

Definition disconnectCalls (s : Sys) : list Effect :=
  match audioContextRef s with
  | Some p => [CloseContext p InputSide]
  | None => []
  end ++
  match outputContextRef s with
  | Some p => [CloseContext p OutputSide]
  | None => []
  end ++
  (StopSource <$> filter (λ i, i < length (sources s)) (activeSourcesRef s)) ++
  match animationFrameRef s with
  | Some (S n) => [CancelAnimationFrame (S n)]
  | _ => []
  end.

(** Where the gapless playback logic places a chunk handled at device time
    [currentTime], and the state once the chunk is scheduled. *)
Definition startOf (s : Sys) (currentTime : T) : T :=
  if num_lt (nextStartTimeRef s) currentTime
  then currentTime else nextStartTimeRef s.

Definition afterChunk (p : nat) (currentTime duration : T) (s : Sys) : Sys :=
  mkSys (state s) (volumes s) (audioContextRef s) (outputContextRef s)
    (num_add (startOf s currentTime) duration)
    (setAdd (length (sources s)) (activeSourcesRef s))
    (inputAnalyserRef s) (outputAnalyserRef s) (animationFrameRef s)
    (pipelines s)
    (sources s ++ [mkSource p (startOf s currentTime) duration false false])
    (pendingFrames s) (nextFrameId s).

(** The state once an interruption is handled. *)
Definition afterInterruption (s : Sys) : Sys :=
  setNextStartTimeRef num_zero
    (setActiveSourcesRef []
       (setSources (stopAll (activeSourcesRef s) (sources s)) s)).

(** The start times passed to [source.start] among emitted calls. *)
Fixpoint startTimes (es : list Effect) : list T :=
  match es with
  | [] => []
  | StartSource _ when :: es' => when :: startTimes es'
  | _ :: es' => startTimes es'
  end.

Definition isSend (e : Effect) : bool :=
  match e with SendRealtimeInput _ _ => true | _ => false end.

Definition isRetry (e : Effect) : bool :=
  match e with GetUserMedia | LiveConnect _ _ => true | _ => false end.

Definition isConsole (e : Effect) : bool :=
  match e with ConsoleLog _ | ConsoleError _ => true | _ => false end.

(** A chunk as it arrives: its base64 payload and the device time
    [outputCtx.currentTime] at which [onmessage] handles it. *)
Definition audioMessage (payload : string) : LiveServerMessage :=
  mkMessage (Some payload) false.

(** Handling a sequence of chunks on pipeline [p]: for each message, the
    start times it passed to [source.start] and the cursor it left. *)
Fixpoint playAll (p : nat) (chunks : list (string * T)) (s : Sys)
  : list (list T * T) :=
  match chunks with
  | [] => []
  | (payload, currentTime) :: rest =>
      let r := onmessage p (audioMessage payload) currentTime s in
      (startTimes (emitted r), nextStartTimeRef (final r))
        :: playAll p rest (final r)
  end.

(** No stall: at no chunk has the device clock overtaken the cursor. *)
Fixpoint noStall (p : nat) (chunks : list (string * T)) (s : Sys) : Prop :=
  match chunks with
  | [] => True
  | (payload, currentTime) :: rest =>
      num_lt (nextStartTimeRef s) currentTime = false ∧
      noStall p rest (final (onmessage p (audioMessage payload) currentTime s))
  end.

(** Back-to-back playback from [t] of buffers of durations [ds]: each
    starts where the previous one ended. *)
Fixpoint backToBack (t : T) (ds : list T) : list (list T * T) :=
  match ds with
  | [] => []
  | d :: ds' => ([t], num_add t d) :: backToBack (num_add t d) ds'
  end.

(** The payload of a chunk is a non-empty string that decodes to a buffer
    of duration [d]. *)
Definition decodesTo (chunk : string * T) (d : T) : Prop :=
  truthy chunk.1 = true ∧ decodeAudio chunk.1 = Some d.

(** A property of the state that a handler keeps, however it completes. *)
Definition preserves (I : Sys → Prop) (h : Handler) : Prop :=
  ∀ s, I s → I (final (h s)).

(** Every call a handler makes satisfies [P]. *)
Definition emitsOnly (P : Effect → Prop) (h : Handler) : Prop :=
  ∀ s e, e ∈ emitted (h s) → P e.

(** Every processor of [s] that has its [onaudioprocess] handler had it
    already among the pipelines [ps0]. *)
Definition handlersFrom (ps0 : list Pipeline) (s : Sys) : Prop :=
  ∀ p pl, pipelines s !! p = Some pl → onaudioprocess pl = true →
    ∃ pl0, ps0 !! p = Some pl0 ∧ onaudioprocess pl0 = true.

End Hook.

Arguments Event : clear implicits.

(** ** The PCM wire format *)

Module PcmCodec.
Local Open Scope Z_scope.

(** Clamping to the range of a 16-bit signed integer. *)
Definition clamp16 (n : Z) : Z := Z.max (-32768) (Z.min 32767 n).

(** A 16-bit signed integer as two bytes, least significant first, and
    back. *)
Definition int16Bytes (n : Z) : list Z :=
  let u := n mod 65536 in [Z.land u 255; Z.shiftr u 8].

Definition int16OfBytes (lo hi : Z) : Z :=
  let u := Z.lor lo (Z.shiftl hi 8) in
  if 32768 <=? u then u - 65536 else u.

Section Codec.

(** The conversion of a scaled sample to an integer; the specification
    leaves the rounding open. *)
Variable toInteger : Q → Z.

(** Modelled from the spec: [createPcmBlob] of [utils/audioUtils], which is
    not part of the sources. Section 4.1: encode maps each float to a 16-bit
    signed little-endian integer by scaling by 32767 and clamping to the
    representable range. Samples are exact rationals here. *)
Definition encodeSample (x : Q) : Z :=
  clamp16 (toInteger (x * inject_Z 32767)%Q).

Definition encode (samples : list Q) : list Z :=
  flat_map (λ x, int16Bytes (encodeSample x)) samples.

(** Modelled from the spec: [decodeAudioData] of [utils/audioUtils], which is
    not part of the sources. Section 4.1: decode is the inverse, it
    reinterprets the bytes as 16-bit signed integers and rescales them to
    [-1,1]; it fails with MalformedAudioData when the payload length is not
    a multiple of 2. *)
Definition decodeSample (lo hi : Z) : Q :=
  (inject_Z (int16OfBytes lo hi) / inject_Z 32767)%Q.

Fixpoint decode (payload : list Z) : option (list Q) :=
  match payload with
  | [] => Some []
  | lo :: hi :: rest =>
      match decode rest with
      | Some out => Some (decodeSample lo hi :: out)
      | None => None
      end
  | [_] => None
  end.

End Codec.

(** Truncation toward zero, the conversion a typed-array store applies. *)
Definition truncate (q : Q) : Z := Z.quot (Qnum q) (Z.pos (Qden q)).

End PcmCodec.

(** ** A concrete session, over the rationals *)

Module Scenario.

(** Every payload but ["bad"] decodes to a buffer of half a second. *)
Definition decodeAudio (payload : string) : option Q :=
  if String.eqb payload "bad" then None else Some (1 # 2)%Q.

(** A frame is represented by its number of samples. *)
Definition createPcmBlob (inputData : list Q) : nat := length inputData.

Definition stepTo (s : Sys Q) (e : Event Q) : Sys Q :=
  final (handle createPcmBlob decodeAudio e s).

(** [connect("Kore")] succeeds and the transport reports [onopen]. *)
Definition connecting : Sys Q :=
  stepTo initial (Connect "Kore" true true 0%Q 0%Q).
Definition connected : Sys Q := stepTo connecting (OnOpen 0).

(** A chunk arrives at device time 2.0 while the cursor is 0. *)
Definition playing : Sys Q :=
  stepTo connected (OnMessage 0 (audioMessage "chunk") 2%Q).

(** [connect] is called a second time while the first session is still
    connecting, the first session then opens, and [disconnect] is called. *)
Definition secondConnect : list (Event Q) :=
  [Connect "Kore" true true 0%Q 0%Q; Connect "Kore" true true 0%Q 0%Q;
   OnOpen 0; Disconnect].

Definition leftBehind : Sys Q :=
  stepTo (stepTo (stepTo connecting (Connect "Kore" true true 0%Q 0%Q))
            (OnOpen 0)) Disconnect.

End Scenario.

(** ** A further notion of the playback scheduler *)

Section SchedulerNotions.
Context {T : Type} `{JsNumber T}.

(** The state once a chunk was scheduled and the interruption carried by
    the same message was handled. *)
Definition afterChunkInterrupted (p : nat) (currentTime duration : T)
    (s : Sys T) : Sys T :=
  afterInterruption (afterChunk p currentTime duration s).

End SchedulerNotions.

(** ** The text chat ([src/App.tsx]) *)

Module ChatApp.

Inductive Role := user | model.

Record Message := mkMessage {
  id : string;
  role : Role;
  text : string
}.

(** [getApiKey] (lines 12-26). [processKey] is [process.env?.API_KEY] and
    [viteKey] is [import.meta.env?.VITE_API_KEY], each [None] when the
    object on the left is undefined. *)
Definition getApiKey (processKey viteKey : option string) : option string :=
  match processKey with
  | Some key => if truthy key then Some key else
      match viteKey with
      | Some key' => if truthy key' then Some key' else None
      | None => None
      end
  | None =>
      match viteKey with
      | Some key' => if truthy key' then Some key' else None
      | None => None
      end
  end.

(** The state of the component; [chatRef] tells whether [chatRef.current]
    holds a chat, and [inFlight] counts the [sendMessage] promises that are
    not settled yet. *)
Record App := mkApp {
  messages : list Message;
  inputText : string;
  isLoading : bool;
  chatRef : bool;
  inFlight : nat
}.

Inductive Call :=
| ChatsCreate
| SendMessage (message : string)
| ConsoleError (msg : string).

Definition isUserMessage (m : Message) : bool :=
  match role m with user => true | model => false end.

Definition isSendMessage (c : Call) : bool :=
  match c with SendMessage _ => true | _ => false end.

Definition initialMessage : Message :=
  mkMessage "init" model
    "Hello, I'm Serenity. I'm here to listen and support you. How are you feeling today?".

Definition initialApp : App := mkApp [initialMessage] EmptyString false false 0.

Definition configurationMissing : string :=
  "⚠️ Configuration Missing: API Key not found.

Since you are deploying to Vercel, please check your Environment Variables.

1. Go to Vercel Project Settings -> Environment Variables
2. Add Key: `API_KEY` (or `VITE_API_KEY` if using Vite)
3. Add Value: Your Google Gemini API Key
4. Redeploy.".

Section Component.

(** The environment of the page. *)
Variable processKey viteKey : option string.

(** [String.prototype.trim] and [Number.prototype.toString]. *)
Variable trim : string → string.
Variable toString : N → string.

Definition appendMessage (m : Message) (a : App) : App :=
  mkApp (messages a ++ [m]) (inputText a) (isLoading a) (chatRef a)
    (inFlight a).

(** The effect run on mount (lines 49-73); [created] tells whether
    [ai.chats.create] returns rather than throws. *)
Definition initEffect (created : bool) (a : App) : App * list Call :=
  match getApiKey processKey viteKey with
  | None =>
      (appendMessage (mkMessage "system-error" model configurationMissing) a,
       [])
  | Some _ =>
      if created
      then (mkApp (messages a) (inputText a) (isLoading a) true (inFlight a),
            [ChatsCreate])
      else (a, [ChatsCreate;
                ConsoleError "Failed to initialize Gemini client:"])
  end.

(** The [onChange] handler of the text area (line 183). *)
Definition setInputText (value : string) (a : App) : App :=
  mkApp (messages a) value (isLoading a) (chatRef a) (inFlight a).

(** [handleSendMessage] up to its [await] (lines 75-106); [now] is what
    [Date.now()] returns. *)
Definition handleSendMessage (now : N) (a : App) : App * list Call :=
  if negb (truthy (trim (inputText a))) || isLoading a then (a, [])
  else if negb (chatRef a) then
    match getApiKey processKey viteKey with
    | None => (a, [])
    | Some _ =>
        (appendMessage
           (mkMessage (toString now) model
              "Connection not established. Please refresh the page or check your connection.")
           a, [])
    end
  else
    let userText := trim (inputText a) in
    (mkApp (messages a ++ [mkMessage (toString now) user userText])
       EmptyString true (chatRef a) (S (inFlight a)),
     [SendMessage userText]).

(** [handleSendMessage] after its [await] (lines 107-125): [result] is
    [Some responseText] when the promise resolved, [responseText] being
    [result.text], and [None] when it was rejected. *)
Definition orListening (responseText : option string) : string :=
  match responseText with
  | Some t => if truthy t then t else "I'm listening..."
  | None => "I'm listening..."
  end.

Definition settle (result : option (option string)) (now : N) (a : App)
  : App * list Call :=
  match result with
  | Some responseText =>
      (mkApp (messages a ++
                [mkMessage (toString (now + 1)) model
                   (orListening responseText)])
         (inputText a) false (chatRef a) (pred (inFlight a)), [])
  | None =>
      (mkApp (messages a ++
                [mkMessage (toString (now + 1)) model
                   "I'm having trouble connecting right now. Please try again in a moment."])
         (inputText a) false (chatRef a) (pred (inFlight a)),
       [ConsoleError "Error sending message:"])
  end.

Inductive Event :=
| Mount (created : bool)
| Change (value : string)
| Submit (now : N)
| Settled (result : option (option string)) (now : N).

Definition handle (e : Event) (a : App) : App * list Call :=
  match e with
  | Mount created => initEffect created a
  | Change value => (setInputText value a, [])
  | Submit now => handleSendMessage now a
  | Settled result now => settle result now a
  end.

(** A promise settles only while it is in flight. *)
Definition enabled (a : App) (e : Event) : bool :=
  match e with
  | Settled _ _ => negb (Nat.eqb (inFlight a) 0)
  | _ => true
  end.

(** The state after a sequence of events and the calls made on the way. *)
Fixpoint run (a : App) (es : list Event) : option (App * list Call) :=
  match es with
  | [] => Some (a, [])
  | e :: es' =>
      if enabled a e then
        match run (handle e a).1 es' with
        | Some (a', calls) => Some (a', ((handle e a).2 ++ calls)%list)
        | None => None
        end
      else None
  end.

(** The loading flag is up exactly while one request is in flight. *)
Definition loadingInv (a : App) : Prop :=
  (isLoading a = true ∧ inFlight a = 1) ∨
  (isLoading a = false ∧ inFlight a = 0).

End Component.

End ChatApp.

(** ** A concrete conversation *)

Module ChatScenario.
Import ChatApp.

(** The inputs of the scenario carry no surrounding white space. *)
Definition trim (input : string) : string := input.

Definition toString (n : N) : string := NilZero.string_of_uint (N.to_uint n).

(** The page is mounted with an API key, the user types and submits, and
    the service answers. *)
Definition conversation : list Event :=
  [Mount true; Change "hello"; Submit 1000; Submit 1001;
   Settled (Some (Some "hi")) 2000].

Definition afterConversation : App :=
  mkApp [initialMessage;
         mkMessage "1000" user "hello";
         mkMessage "2001" model "hi"]
    EmptyString false true 0.

End ChatScenario.

(** * Properties *)

(** ** Handlers in general *)

Section HandlerFacts.
Context {T Blob : Type}.
Implicit Types (h k : Handler T Blob) (I : Sys T → Prop).

Lemma andThen_returned h k s :
  completion (h s) = Returned →
  (h ;; k) s =
    mkResult (completion (k (final (h s)))) (final (k (final (h s))))
      (emitted (h s) ++ emitted (k (final (h s)))).
Proof. intros Hc. unfold andThen. by rewrite Hc. Qed.

Lemma andThen_threw h k s :
  completion (h s) = Threw → (h ;; k) s = h s.
Proof. intros Hc. unfold andThen. by rewrite Hc. Qed.

Lemma andThen_eq h k s s1 e1 c s2 e2 :
  h s = mkResult Returned s1 e1 →
  k s1 = mkResult c s2 e2 →
  (h ;; k) s = mkResult c s2 (e1 ++ e2).
Proof. intros Hh Hk. unfold andThen. by rewrite Hh; cbn; rewrite Hk. Qed.

Lemma andThen_skip_r h s : (h ;; skip) s = h s.
Proof.
  unfold andThen. destruct (h s) as [[] s' es]; cbn; [|done].
  by rewrite app_nil_r.
Qed.

Lemma preserves_skip I : preserves I (@skip T Blob).
Proof. by intros s. Qed.

Lemma preserves_throw I : preserves I (@throw T Blob).
Proof. by intros s. Qed.

Lemma preserves_emit I (e : Effect T Blob) : preserves I (emit e).
Proof. by intros s. Qed.

Lemma preserves_modify I (f : Sys T → Sys T) :
  (∀ s, I s → I (f s)) → preserves I (@modify T Blob f).
Proof. intros Hf s Hs. by apply Hf. Qed.

Lemma preserves_andThen I h k :
  preserves I h → preserves I k → preserves I (h ;; k).
Proof.
  intros Hh Hk s Hs. unfold andThen.
  destruct (completion (h s)); cbn; auto.
Qed.

Lemma preserves_tryCatch I h k :
  preserves I h → preserves I k → preserves I (tryCatch h k).
Proof.
  intros Hh Hk s Hs. unfold tryCatch.
  destruct (completion (h s)); cbn; auto.
Qed.

Lemma preserves_forEach {A} I (xs : list A) (f : A → Handler T Blob) :
  (∀ x, preserves I (f x)) → preserves I (forEach xs f).
Proof.
  intros Hf. induction xs as [|x xs IH]; cbn.
  - apply preserves_skip.
  - by apply preserves_andThen.
Qed.

(** A handler chosen by looking at the state. *)
Lemma preserves_dep I (g : Sys T → Handler T Blob) :
  (∀ s0, preserves I (g s0)) → preserves I (λ s, g s s).
Proof. intros Hg s Hs. by apply Hg. Qed.

End HandlerFacts.

Section HookFacts.
Context {T : Type} `{JsNumber T} {Blob : Type}.
Variable createPcmBlob : list T → Blob.
Variable decodeAudio : string → option T.
Implicit Types (s : Sys T) (p i : nat).

(** ** Stopping the active sources *)

Lemma stopAll_length ids (ss : list (Source T)) :
  length (stopAll ids ss) = length ss.
Proof.
  unfold stopAll.
  revert ss. induction ids as [|i ids IH]; intros ss; cbn; [done|].
  rewrite IH. unfold stopOne. destruct (ss !! i); [|done].
  by rewrite length_insert.
Qed.

Lemma tryStop_spec i s :
  tryCatch (stopSource (Blob:=Blob) i) skip s =
    mkResult Returned (setSources (stopOne (sources s) i) s)
      (if decide (i < length (sources s)) then [StopSource i] else []).
Proof.
  unfold tryCatch, stopSource, stopOne.
  destruct (sources s !! i) as [src|] eqn:Hi; cbn.
  - rewrite decide_True by (by eapply lookup_lt_Some). done.
  - rewrite decide_False by (apply lookup_ge_None in Hi; lia).
    by destruct s.
Qed.

Lemma forEach_stop ids s :
  forEach ids (λ source, tryCatch (stopSource (Blob:=Blob) source) skip) s =
    mkResult Returned (setSources (stopAll ids (sources s)) s)
      (StopSource <$> filter (λ i, i < length (sources s)) ids).
Proof.
  revert s. induction ids as [|i ids IH]; intros s.
  - by destruct s.
  - cbn [forEach]. rewrite andThen_returned by (by rewrite tryStop_spec).
    rewrite IH, tryStop_spec. cbn [final emitted completion].
    assert (length (sources (setSources (stopOne (sources s) i) s))
            = length (sources s)) as ->.
    { cbn. unfold stopOne. destruct (sources s !! i); [|done].
      by rewrite length_insert. }
    f_equal.
    rewrite filter_cons. destruct (decide (i < length (sources s))); done.
Qed.

Lemma stopAllActive_spec s :
  stopAllActive (Blob:=Blob) s =
    mkResult Returned
      (setActiveSourcesRef []
         (setSources (stopAll (activeSourcesRef s) (sources s)) s))
      (StopSource <$>
         filter (λ i, i < length (sources s)) (activeSourcesRef s)).
Proof.
  unfold stopAllActive.
  rewrite andThen_returned by (by rewrite forEach_stop).
  rewrite forEach_stop. cbn. by rewrite app_nil_r.
Qed.

(** What [stopAll] does to one source. *)
Lemma stopAll_lookup ids (ss : list (Source T)) i src :
  ss !! i = Some src →
  stopAll ids ss !! i =
    Some (if decide (i ∈ ids) then markStopped src else src).
Proof.
  unfold stopAll. revert ss src.
  induction ids as [|j ids IH]; intros ss src Hi; cbn.
  - rewrite decide_False by apply not_elem_of_nil. done.
  - unfold stopOne at 2. destruct (decide (j = i)) as [->|Hne].
    + rewrite Hi. erewrite IH by (apply list_lookup_insert_eq;
        by eapply lookup_lt_Some).
      rewrite (decide_True (P := i ∈ i :: ids)) by (apply elem_of_cons; by left).
      by destruct (decide (i ∈ ids)).
    + assert (match ss !! j with
              | Some src0 => <[j:=markStopped src0]> ss
              | None => ss
              end !! i = Some src) as Hi'.
      { destruct (ss !! j); [|done]. by rewrite list_lookup_insert_ne. }
      rewrite (IH _ _ Hi').
      destruct (decide (i ∈ ids)) as [Hin|Hnin].
      * rewrite decide_True by (apply elem_of_cons; by right). done.
      * rewrite decide_False; [done|].
        intros [?|?]%elem_of_cons; congruence.
Qed.

(** ** [disconnect] *)

Lemma closeAndForget_spec side s :
  refRunning side (contextRef side s) (pipelines s) →
  closeAndForget (Blob:=Blob) side s =
    mkResult Returned
      (setContextRef side None
         (setPipelines (closeRef side (contextRef side s) (pipelines s)) s))
      (match contextRef side s with
       | Some p => [CloseContext p side]
       | None => []
       end).
Proof.
  intros Hrun. unfold closeAndForget, closeRef.
  destruct (contextRef side s) as [p|] eqn:Href.
  - destruct (Hrun p eq_refl) as (pl & Hp & Hpl).
    unfold andThen at 1, closeContext. rewrite Hp, Hpl. done.
  - destruct side, s; cbn in *; by subst.
Qed.

Lemma stopAnalyzing_spec s :
  stopAnalyzing (Blob:=Blob) s =
    mkResult Returned
      (setAnimationFrameRef
         (match animationFrameRef s with Some (S _) => None | a => a end)
         (setFrames
            (match animationFrameRef s with
             | Some (S n) => filter (λ y, y ≠ S n) (pendingFrames s)
             | _ => pendingFrames s
             end) (nextFrameId s) s))
      (match animationFrameRef s with
       | Some (S n) => [CancelAnimationFrame (S n)]
       | _ => []
       end).
Proof.
  unfold stopAnalyzing.
  destruct (animationFrameRef s) as [[|n]|] eqn:Hfr; [| done |];
    destruct s; cbn in *; by subst.
Qed.

Lemma closeRef_other_side side side' ref ref' (ps : list Pipeline) :
  side ≠ side' →
  refRunning side' ref' ps →
  refRunning side' ref' (closeRef side ref ps).
Proof.
  intros Hne Hrun q Hq. destruct (Hrun q Hq) as (pl & Hpl & Hr).
  unfold closeRef. destruct ref as [p|]; [|by eauto].
  destruct (ps !! p) as [pl0|] eqn:Hp; [|by eauto].
  destruct (decide (p = q)) as [->|Hpq].
  - exists (closeSide side pl0). split.
    + apply list_lookup_insert_eq. by eapply lookup_lt_Some.
    + assert (pl0 = pl) as -> by congruence.
      by destruct side, side'.
  - exists pl. by rewrite list_lookup_insert_ne.
Qed.

Lemma disconnect_spec s :
  refsRunning s →
  disconnect (Blob:=Blob) s =
    mkResult Returned (disconnected s) (disconnectCalls s).
Proof.
  intros [Hin Hout]. unfold disconnect. etrans.
  { eapply andThen_eq; [by apply closeAndForget_spec|].
    eapply andThen_eq.
    { apply closeAndForget_spec. by apply closeRef_other_side. }
    eapply andThen_eq; [apply stopAllActive_spec|].
    eapply andThen_eq; [apply stopAnalyzing_spec|].
    eapply andThen_eq; reflexivity. }
  destruct s. unfold disconnected, disconnectCalls. cbn.
  by rewrite !app_nil_r.
Qed.

(** A second [disconnect] finds nothing left to do. *)
Lemma disconnected_refsRunning s : refsRunning (disconnected s).
Proof. split; by intros p. Qed.

Lemma disconnected_idem s : disconnected (disconnected s) = disconnected s.
Proof.
  unfold disconnected. cbn.
  by destruct (animationFrameRef s) as [[|n]|].
Qed.

Lemma disconnectCalls_disconnected s :
  disconnectCalls (Blob:=Blob) (disconnected s) = [].
Proof.
  unfold disconnectCalls. cbn.
  by destruct (animationFrameRef s) as [[|n]|].
Qed.

Lemma closeRef_lookup side ref (ps : list Pipeline) q :
  closeRef side ref ps !! q =
    (λ pl, if decide (ref = Some q) then closeSide side pl else pl)
      <$> ps !! q.
Proof.
  unfold closeRef. destruct ref as [p|].
  - destruct (ps !! p) as [pl0|] eqn:Hp.
    + destruct (decide (p = q)) as [->|Hne].
      * rewrite list_lookup_insert_eq by (by eapply lookup_lt_Some).
        rewrite Hp. cbn. by rewrite decide_True.
      * rewrite list_lookup_insert_ne by done.
        destruct (ps !! q); cbn; [|done].
        rewrite decide_False; [done|congruence].
    + destruct (ps !! q) eqn:Hq; cbn; [|done].
      rewrite decide_False; [done|]. intros [= ->]. congruence.
  - destruct (ps !! q); cbn; [|done]. by rewrite decide_False.
Qed.

(** Each step of [disconnect] leaves the [error] field alone, whether or
    not the call completes. *)
Lemma closeContext_preserves (I : Sys T → Prop) p side :
  (∀ s ps, I s → I (setPipelines ps s)) →
  preserves I (closeContext (Blob:=Blob) p side).
Proof.
  intros Hps s Hs. unfold closeContext.
  destruct (pipelines s !! p) as [pl|]; [|done].
  destruct (running side pl); [|done]. cbn. by apply Hps.
Qed.

Lemma disconnect_preserves_error e :
  preserves (λ s, error (state s) = e) (disconnect (Blob:=Blob)).
Proof.
  unfold disconnect.
  assert (∀ side, preserves (λ s, error (state s) = e)
                    (closeAndForget (Blob:=Blob) side)) as Hclose.
  { intros side s Hs. unfold closeAndForget.
    destruct (contextRef side s) as [p|]; [|done].
    apply preserves_andThen; [| |done].
    - by apply closeContext_preserves.
    - apply preserves_modify. by intros ? ?; destruct side. }
  apply preserves_andThen; [apply Hclose|].
  apply preserves_andThen; [apply Hclose|].
  apply preserves_andThen.
  { intros s Hs. by rewrite stopAllActive_spec. }
  apply preserves_andThen.
  { intros s Hs. by rewrite stopAnalyzing_spec. }
  apply preserves_andThen; by apply preserves_modify.
Qed.

Lemma onerror_unfold p s :
  onerror (Blob:=Blob) p s =
    let r := disconnect (setState (λ prev,
               mkLiveSessionState (isConnected prev) (isConnecting prev)
                 (Some "Connection error occurred.")) s) in
    mkResult (completion r) (final r)
      (ConsoleError "Gemini Live Error" :: emitted r).
Proof. reflexivity. Qed.

(** C4: [disconnect] is idempotent. From every state whose context refs
    designate running contexts (every state the hook can be in) the call
    returns without error and leaves [isConnected] and [isConnecting] false
    and both volumes zero; a second call right after returns without error,
    makes no call and changes nothing; and so does a call on the initial,
    never connected state. *)
Theorem disconnect_idempotent s :
  refsRunning s →
  let r := disconnect (Blob:=Blob) s in
  completion r = Returned ∧
  isConnected (state (final r)) = false ∧
  isConnecting (state (final r)) = false ∧
  inputVolume (volumes (final r)) = num_zero ∧
  outputVolume (volumes (final r)) = num_zero ∧
  disconnect (Blob:=Blob) (final r) = mkResult Returned (final r) [] ∧
  disconnect (Blob:=Blob) initial = mkResult Returned initial [].
Proof.
  intros Hrun. cbn zeta. rewrite (disconnect_spec s Hrun).
  cbn [completion final]. split_and!; try done.
  rewrite (disconnect_spec _ (disconnected_refsRunning s)).
  by rewrite disconnected_idem, disconnectCalls_disconnected.
Qed.

(** C10: [disconnect] leaves the [error] field as it found it, for every
    state and however the call completes; so after the transport's
    [onerror] handler the message it recorded is still there. *)
Theorem disconnect_keeps_error s :
  error (state (final (disconnect (Blob:=Blob) s))) = error (state s) ∧
  ∀ p, error (state (final (onerror (Blob:=Blob) p s)))
       = Some "Connection error occurred.".
Proof.
  split.
  - by apply disconnect_preserves_error.
  - intros p. rewrite onerror_unfold. cbn zeta. cbn [final].
    by rewrite disconnect_preserves_error.
Qed.

(** ** The playback scheduler *)

Lemma handleAudioOutput_spec s p message payload duration currentTime :
  inlineData message = Some payload →
  truthy payload = true →
  decodeAudio payload = Some duration →
  handleAudioOutput (Blob:=Blob) decodeAudio p message currentTime s =
    mkResult Returned (afterChunk p currentTime duration s)
      [StartSource (length (sources s)) (startOf s currentTime)].
Proof.
  intros Hdata Htruthy Hdec. unfold handleAudioOutput.
  rewrite Hdata, Htruthy, Hdec. unfold afterChunk, startOf.
  unfold andThen at 1.
  destruct (num_lt (nextStartTimeRef s) currentTime); by destruct s.
Qed.

Lemma handleAudioOutput_threw s p message payload currentTime :
  inlineData message = Some payload →
  truthy payload = true →
  decodeAudio payload = None →
  handleAudioOutput (Blob:=Blob) decodeAudio p message currentTime s =
    mkResult Threw s [].
Proof.
  intros Hdata Htruthy Hdec. unfold handleAudioOutput.
  by rewrite Hdata, Htruthy, Hdec.
Qed.

Lemma handleInterruption_spec s message :
  interrupted message = true →
  handleInterruption (Blob:=Blob) message s =
    mkResult Returned (afterInterruption s)
      (ConsoleLog "Interrupted by user" ::
       (StopSource <$>
          filter (λ i, i < length (sources s)) (activeSourcesRef s))).
Proof.
  intros Hint. unfold handleInterruption. rewrite Hint. etrans.
  { eapply andThen_eq; [reflexivity|].
    eapply andThen_eq; [apply stopAllActive_spec|reflexivity]. }
  cbn. by rewrite app_nil_r.
Qed.

Lemma handleInterruption_skip s message :
  interrupted message = false →
  handleInterruption (Blob:=Blob) message s = mkResult Returned s [].
Proof. intros Hint. unfold handleInterruption. by rewrite Hint. Qed.

Lemma onmessage_no_interruption s p message currentTime :
  interrupted message = false →
  onmessage decodeAudio p message currentTime s =
    handleAudioOutput (Blob:=Blob) decodeAudio p message currentTime s.
Proof.
  intros Hint. unfold onmessage, andThen.
  rewrite handleInterruption_skip by done.
  destruct (handleAudioOutput _ _ _ _ _) as [[] s' es]; cbn; [|done].
  by rewrite app_nil_r.
Qed.

Lemma onmessage_no_audio s p message currentTime :
  inlineData message = None →
  onmessage decodeAudio p message currentTime s =
    handleInterruption (Blob:=Blob) message s.
Proof.
  intros Hdata. unfold onmessage, andThen, handleAudioOutput.
  rewrite Hdata. cbn. by destruct (handleInterruption message s).
Qed.

(** C2: a chunk handled when the device time is past the cursor (a stall,
    or the cursor still at its initial 0) is started at the device time, and
    the audio path leaves the cursor at that time plus the duration of the
    chunk; when the message carries no interruption this is all [onmessage]
    does. *)
Theorem stalled_chunk_starts_now s p message payload duration currentTime :
  inlineData message = Some payload →
  truthy payload = true →
  decodeAudio payload = Some duration →
  num_lt (nextStartTimeRef s) currentTime = true →
  let r := handleAudioOutput (Blob:=Blob) decodeAudio p message currentTime s in
  completion r = Returned ∧
  emitted r = [StartSource (length (sources s)) currentTime] ∧
  sources (final r) =
    (sources s ++ [mkSource p currentTime duration false false])%list ∧
  nextStartTimeRef (final r) = num_add currentTime duration ∧
  (interrupted message = false →
   onmessage decodeAudio p message currentTime s = r).
Proof.
  intros Hdata Htruthy Hdec Hlt. cbn zeta.
  rewrite (handleAudioOutput_spec s p message payload duration) by done.
  unfold afterChunk, startOf. rewrite Hlt. cbn. split_and!; try done.
  intros Hint. rewrite onmessage_no_interruption by done.
  rewrite (handleAudioOutput_spec s p message payload duration) by done.
  unfold afterChunk, startOf. by rewrite Hlt.
Qed.

(** C3: handling an interruption calls [stop()] on every source in
    ActiveSources (a failing [stop()] is ignored), empties ActiveSources and
    sets the cursor to zero; the next chunk, handled at a device time that
    is zero or later, is then started at that device time. A message that
    carries only the interruption flag does exactly this. *)
Theorem interruption_resets s message :
  interrupted message = true →
  let r := handleInterruption (Blob:=Blob) message s in
  completion r = Returned ∧
  (∀ i src, i ∈ activeSourcesRef s → sources s !! i = Some src →
     StopSource i ∈ emitted r ∧
     sources (final r) !! i = Some (markStopped src)) ∧
  activeSourcesRef (final r) = [] ∧
  nextStartTimeRef (final r) = num_zero ∧
  (∀ p next payload duration currentTime,
     inlineData next = Some payload →
     truthy payload = true →
     decodeAudio payload = Some duration →
     currentTime = num_zero ∨ num_lt num_zero currentTime = true →
     let r' := handleAudioOutput (Blob:=Blob) decodeAudio p next currentTime
                 (final r) in
     emitted r' = [StartSource (length (sources (final r))) currentTime] ∧
     nextStartTimeRef (final r') = num_add currentTime duration) ∧
  (∀ p currentTime, inlineData message = None →
     onmessage decodeAudio p message currentTime s = r).
Proof.
  intros Hint. cbn zeta. rewrite handleInterruption_spec by done.
  cbn [completion final emitted]. split_and!; try done.
  - intros i src Hi Hsrc. split.
    + apply elem_of_cons. right. apply list_elem_of_fmap.
      exists i. split; [done|]. apply list_elem_of_filter.
      split; [by eapply lookup_lt_Some|done].
    + cbn. rewrite (stopAll_lookup _ _ _ _ Hsrc). by rewrite decide_True.
  - intros p next payload duration currentTime Hdata Htruthy Hdec Hnow.
    cbn zeta.
    rewrite (handleAudioOutput_spec _ p next payload duration) by done.
    cbn. unfold startOf. cbn.
    destruct Hnow as [->|Hlt].
    + by destruct (num_lt num_zero num_zero).
    + by rewrite Hlt.
  - intros p currentTime Hdata. rewrite onmessage_no_audio by done.
    by apply handleInterruption_spec.
Qed.

Lemma onmessage_chunk s p payload duration currentTime :
  decodesTo decodeAudio (payload, currentTime) duration →
  onmessage decodeAudio p (audioMessage payload) currentTime s =
    mkResult (Blob:=Blob) Returned (afterChunk p currentTime duration s)
      [StartSource (length (sources s)) (startOf s currentTime)].
Proof.
  intros [Htruthy Hdec]. rewrite onmessage_no_interruption by done.
  by apply handleAudioOutput_spec with payload.
Qed.

(** Without a stall the chunks are laid end to end from the cursor. *)
Lemma playAll_noStall p chunks ds s :
  Forall2 (decodesTo decodeAudio) chunks ds →
  noStall (Blob:=Blob) decodeAudio p chunks s →
  playAll (Blob:=Blob) decodeAudio p chunks s
    = backToBack (nextStartTimeRef s) ds.
Proof.
  intros Hdec. revert s.
  induction Hdec as [|[payload currentTime] d chunks ds Hd _ IH];
    intros s Hstall; [done|].
  cbn [playAll noStall backToBack] in *. destruct Hstall as [Hlt Hrest].
  rewrite (onmessage_chunk s p payload d currentTime Hd) in *.
  cbn [final emitted startTimes] in *.
  rewrite (IH _ Hrest). unfold afterChunk, startOf. cbn. by rewrite Hlt.
Qed.

(** C1: chunks of durations [d :: ds] handled in sequence, the first at
    device time [t0] with the cursor not ahead of it, the others while the
    device clock has not overtaken the cursor, are started at [t0],
    [t0 + d], ...: each message starts exactly one source, at the cursor the
    previous one left, and leaves the cursor at that start plus the duration
    of its chunk. *)
Theorem gapless_playback p payload t0 d rest ds s :
  decodesTo decodeAudio (payload, t0) d →
  Forall2 (decodesTo decodeAudio) rest ds →
  nextStartTimeRef s = t0 ∨ num_lt (nextStartTimeRef s) t0 = true →
  noStall (Blob:=Blob) decodeAudio p rest
    (final (onmessage (Blob:=Blob) decodeAudio p (audioMessage payload) t0 s)) →
  playAll (Blob:=Blob) decodeAudio p ((payload, t0) :: rest) s
    = backToBack t0 (d :: ds).
Proof.
  intros Hd Hds Hfirst Hstall. cbn [playAll backToBack].
  rewrite (onmessage_chunk s p payload d t0 Hd) in *.
  cbn [final emitted startTimes] in *.
  rewrite (playAll_noStall p rest ds _ Hds Hstall).
  assert (startOf s t0 = t0) as Hstart.
  { unfold startOf. destruct Hfirst as [<- | ->]; [|done].
    by destruct (num_lt _ _). }
  unfold afterChunk. cbn. by rewrite Hstart.
Qed.

(** C6, as the code has it: when the payload of an inbound chunk fails to
    decode, [onmessage] stops at the decoding step. Its promise is rejected,
    it has made no call (so it has logged nothing itself) and it has changed
    nothing: connection status, cursor and ActiveSources are as before, and
    every later event is handled as if the chunk had never arrived. *)
Theorem bad_chunk_dropped s p message payload currentTime :
  inlineData message = Some payload →
  truthy payload = true →
  decodeAudio payload = None →
  let r := onmessage (Blob:=Blob) decodeAudio p message currentTime s in
  completion r = Threw ∧
  emitted r = [] ∧
  final r = s ∧
  ∀ e, enabled (final r) e = enabled s e ∧
       handle createPcmBlob decodeAudio e (final r)
         = handle createPcmBlob decodeAudio e s.
Proof.
  intros Hdata Htruthy Hdec. cbn zeta. unfold onmessage.
  rewrite andThen_threw
    by (by rewrite (handleAudioOutput_threw s p message payload)).
  by rewrite (handleAudioOutput_threw s p message payload).
Qed.

(** C5, as the code has it: when the transport delivers an error, the
    session goes to Disconnected ([isConnected] and [isConnecting] false),
    [error] holds a non-empty message, both referenced audio contexts are
    closed and forgotten, and the handler starts no new connection attempt;
    the microphone stream of every pipeline is left as it was. *)
Theorem onerror_disconnects s p :
  refsRunning s →
  let r := onerror (Blob:=Blob) p s in
  completion r = Returned ∧
  isConnected (state (final r)) = false ∧
  isConnecting (state (final r)) = false ∧
  (∃ msg, error (state (final r)) = Some msg ∧ truthy msg = true) ∧
  (∀ e, e ∈ emitted r → isRetry e = false) ∧
  audioContextRef (final r) = None ∧
  outputContextRef (final r) = None ∧
  (∀ q, audioContextRef s = Some q →
     ∃ pl, pipelines (final r) !! q = Some pl ∧ inputCtxRunning pl = false) ∧
  (∀ q, outputContextRef s = Some q →
     ∃ pl, pipelines (final r) !! q = Some pl ∧ outputCtxRunning pl = false) ∧
  (∀ q pl, pipelines s !! q = Some pl →
     ∃ pl', pipelines (final r) !! q = Some pl' ∧
            streamLive pl' = streamLive pl).
Proof.
  intros [Hin Hout]. cbn zeta. rewrite onerror_unfold. cbn zeta.
  rewrite disconnect_spec by done. cbn [completion final emitted].
  split_and!; try done.
  - by eexists.
  - intros e [->|He]%elem_of_cons; [done|].
    unfold disconnectCalls in He. cbn in He.
    rewrite !elem_of_app in He.
    destruct He as [He|[He|[He|He]]].
    + destruct (audioContextRef s); [|by apply elem_of_nil in He].
      by apply list_elem_of_singleton in He as ->.
    + destruct (outputContextRef s); [|by apply elem_of_nil in He].
      by apply list_elem_of_singleton in He as ->.
    + by apply list_elem_of_fmap in He as (i & -> & _).
    + destruct (animationFrameRef s) as [[|n]|];
        try by apply elem_of_nil in He.
      by apply list_elem_of_singleton in He as ->.
  - intros q Hq. destruct (Hin q Hq) as (pl & Hpl & _). cbn.
    rewrite !closeRef_lookup, Hpl, Hq. cbn.
    rewrite (decide_True (P := Some q = Some q)) by done.
    eexists. split; [done|]. by destruct (decide _).
  - intros q Hq. destruct (Hout q Hq) as (pl & Hpl & _). cbn.
    rewrite !closeRef_lookup, Hpl, Hq. cbn.
    rewrite (decide_True (P := Some q = Some q)) by done.
    eexists. split; [done|]. by destruct (decide _).
  - intros q pl Hpl. cbn. rewrite !closeRef_lookup, Hpl. cbn.
    eexists. split; [done|]. by repeat destruct (decide _).
Qed.

(** ** ActiveSources holds live sources only *)

Ltac keep_step :=
  first
    [ apply preserves_skip
    | apply preserves_throw
    | apply preserves_emit
    | apply preserves_modify; intros ? ?; assumption
    | apply preserves_andThen
    | apply preserves_tryCatch ].

Lemma stopAllActive_live :
  preserves activeSourcesLive (stopAllActive (T:=T) (Blob:=Blob)).
Proof.
  intros s _. rewrite stopAllActive_spec. cbn.
  by intros i Hi%elem_of_nil.
Qed.

Lemma updateVolumes_live vin vout :
  preserves activeSourcesLive (updateVolumes (Blob:=Blob) vin vout).
Proof.
  unfold updateVolumes. apply preserves_andThen.
  - apply preserves_modify. by intros s Hs.
  - by intros s Hs.
Qed.

Lemma disconnect_live :
  preserves activeSourcesLive (disconnect (T:=T) (Blob:=Blob)).
Proof.
  assert (∀ side, preserves activeSourcesLive
                    (closeAndForget (T:=T) (Blob:=Blob) side)) as Hclose.
  { intros side s Hs. unfold closeAndForget.
    destruct (contextRef side s) as [p|]; [|done].
    apply preserves_andThen; [| |done].
    - apply closeContext_preserves. by intros ? ? ?.
    - apply preserves_modify. by intros ? ?; destruct side. }
  unfold disconnect.
  apply preserves_andThen; [apply Hclose|].
  apply preserves_andThen; [apply Hclose|].
  apply preserves_andThen; [apply stopAllActive_live|].
  apply preserves_andThen.
  { intros s Hs. by rewrite stopAnalyzing_spec. }
  by repeat keep_step.
Qed.

Lemma connect_live voiceName apiKey micGranted vin vout :
  preserves activeSourcesLive
    (connect (Blob:=Blob) voiceName apiKey micGranted vin vout).
Proof.
  unfold connect. destruct apiKey; cbn [negb]; [|by keep_step].
  apply preserves_tryCatch; [|by repeat keep_step].
  do 3 (apply preserves_andThen; [by destruct micGranted; keep_step|]).
  intros s Hs. cbn zeta.
  assert (preserves activeSourcesLive
            (updateVolumes (Blob:=Blob) vin vout ;;
             emit (LiveConnect (length (pipelines s)) voiceName))) as Hrest.
  { apply preserves_andThen; [apply updateVolumes_live|keep_step]. }
  unfold andThen at 1 2 3 4 5. cbn. by apply Hrest.
Qed.

Lemma afterChunk_live p currentTime duration s :
  activeSourcesLive s → activeSourcesLive (afterChunk p currentTime duration s).
Proof.
  intros Hs i Hi. cbn in Hi |- *. unfold setAdd in Hi.
  assert (i ∈ activeSourcesRef s ∨ i = length (sources s)) as [Hin| ->].
  { destruct (decide (length (sources s) ∈ activeSourcesRef s)); [by left|].
    apply elem_of_app in Hi as [?|?%list_elem_of_singleton]; auto. }
  - destruct (Hs i Hin) as (src & Hsrc & Hflags). exists src.
    split; [|done]. by apply lookup_app_l_Some.
  - eexists. split; [apply list_lookup_middle; done|done].
Qed.

Lemma handleAudioOutput_live p message currentTime :
  preserves activeSourcesLive
    (handleAudioOutput (Blob:=Blob) decodeAudio p message currentTime).
Proof.
  intros s Hs.
  destruct (inlineData message) as [payload|] eqn:Hdata;
    [|by unfold handleAudioOutput; rewrite Hdata].
  destruct (truthy payload) eqn:Htruthy;
    [|by unfold handleAudioOutput; rewrite Hdata, Htruthy].
  destruct (decodeAudio payload) as [duration|] eqn:Hdec.
  - rewrite (handleAudioOutput_spec s p message payload duration) by done.
    by apply afterChunk_live.
  - by rewrite (handleAudioOutput_threw s p message payload).
Qed.

Lemma handleInterruption_live message :
  preserves activeSourcesLive (handleInterruption (T:=T) (Blob:=Blob) message).
Proof.
  intros s Hs. destruct (interrupted message) eqn:Hint.
  - rewrite handleInterruption_spec by done. cbn.
    by intros i Hi%elem_of_nil.
  - by rewrite handleInterruption_skip.
Qed.

Lemma sourceEnds_spec i s :
  sourceEnds (Blob:=Blob) i s =
    mkResult Returned
      (setActiveSourcesRef (setDelete i (activeSourcesRef s))
         (setSources (alter markEnded i (sources s)) s)) [].
Proof. reflexivity. Qed.

Lemma sourceEnds_live i :
  preserves activeSourcesLive (sourceEnds (T:=T) (Blob:=Blob) i).
Proof.
  intros s Hs j Hj. rewrite sourceEnds_spec in *. cbn in Hj |- *.
  apply list_elem_of_filter in Hj as [Hne Hj].
  destruct (Hs j Hj) as (src & Hsrc & Hflags). exists src.
  split; [|done]. by rewrite list_lookup_alter_ne.
Qed.

Lemma handle_live e :
  preserves activeSourcesLive (handle createPcmBlob decodeAudio e).
Proof.
  destruct e; cbn [handle].
  - apply connect_live.
  - apply disconnect_live.
  - unfold onopen. by repeat keep_step.
  - unfold onmessage. apply preserves_andThen;
      [apply handleAudioOutput_live|apply handleInterruption_live].
  - unfold onclose. apply preserves_andThen; [keep_step|apply disconnect_live].
  - unfold onerror. do 2 (apply preserves_andThen; [by keep_step|]).
    apply disconnect_live.
  - unfold audioprocess. keep_step.
  - apply sourceEnds_live.
  - unfold animationFrame. apply preserves_andThen;
      [by keep_step|apply updateVolumes_live].
Qed.

Lemma run_invariant (I : Sys T → Prop) ok es s0 s :
  (∀ s e, I s → ok s e = true →
     I (final (handle createPcmBlob decodeAudio e s))) →
  I s0 →
  run createPcmBlob decodeAudio ok s0 es = Some s →
  I s.
Proof.
  intros Hstep. revert s0.
  induction es as [|e es IH]; intros s0 Hs0 Hrun; cbn in Hrun.
  - by injection Hrun as <-.
  - destruct (ok s0 e) eqn:Hok; [|done]. eapply IH; [|done]. by apply Hstep.
Qed.

(** C9: ActiveSources contains only sources that have neither finished nor
    been stopped. Every handler keeps it so (scheduling a chunk, the end of
    a source, an interruption, [disconnect], and all the others), hence it
    holds in every state a run from the initial state reaches; and the end
    of a source removes it from ActiveSources, makes no call and changes
    nothing else in the hook. *)
Theorem activeSources_never_stale :
  (∀ s e, activeSourcesLive s →
     activeSourcesLive (final (handle createPcmBlob decodeAudio e s))) ∧
  (∀ es s, run createPcmBlob decodeAudio enabled initial es = Some s →
     activeSourcesLive s) ∧
  (∀ s i,
     onended (Blob:=Blob) i s =
       mkResult Returned
         (setActiveSourcesRef (setDelete i (activeSourcesRef s)) s) [] ∧
     i ∉ activeSourcesRef (final (sourceEnds (Blob:=Blob) i s))).
Proof.
  split_and!.
  - intros s e. apply handle_live.
  - intros es s Hrun.
    apply (run_invariant activeSourcesLive enabled es initial s); [| |done].
    + intros s' e Hs' _. by apply handle_live.
    + by intros i Hi%elem_of_nil.
  - intros s i. split; [done|]. rewrite sourceEnds_spec. cbn.
    unfold setDelete. rewrite list_elem_of_filter. by intros [? _].
Qed.

(** ** Frames are forwarded only after the open event *)

Lemma emitsOnly_andThen (P : Effect T Blob → Prop) (h k : Handler T Blob) :
  emitsOnly P h → emitsOnly P k → emitsOnly P (h ;; k).
Proof.
  intros Hh Hk s e. unfold andThen.
  destruct (completion (h s)); cbn; [|by apply Hh].
  intros [?|?]%elem_of_app; [by eapply Hh|by eapply Hk].
Qed.

Lemma emitsOnly_tryCatch (P : Effect T Blob → Prop) (h k : Handler T Blob) :
  emitsOnly P h → emitsOnly P k → emitsOnly P (tryCatch h k).
Proof.
  intros Hh Hk s e. unfold tryCatch.
  destruct (completion (h s)); cbn; [by apply Hh|].
  intros [?|?]%elem_of_app; [by eapply Hh|by eapply Hk].
Qed.

Lemma emitsOnly_silent (P : Effect T Blob → Prop) (h : Handler T Blob) :
  (∀ s, emitted (h s) = []) → emitsOnly P h.
Proof. intros Hh s e. rewrite Hh. by intros ?%elem_of_nil. Qed.

Lemma emitsOnly_emit (P : Effect T Blob → Prop) (x : Effect T Blob) :
  P x → emitsOnly P (emit x).
Proof. by intros Hx s e ->%list_elem_of_singleton. Qed.

Lemma emitsOnly_list (P : Effect T Blob → Prop) (h : Handler T Blob) :
  (∀ s, Forall P (emitted (h s))) → emitsOnly P h.
Proof. intros Hh s e He. by eapply Forall_forall in He. Qed.

Ltac quiet_step :=
  first
    [ apply emitsOnly_silent; done
    | apply emitsOnly_emit; done
    | apply emitsOnly_andThen
    | apply emitsOnly_tryCatch ].

Lemma disconnect_no_send :
  emitsOnly (λ x, isSend x = false) (disconnect (T:=T) (Blob:=Blob)).
Proof.
  assert (∀ side, emitsOnly (λ x, isSend x = false)
                    (closeAndForget (T:=T) (Blob:=Blob) side)) as Hclose.
  { intros side s e. unfold closeAndForget, andThen, closeContext.
    destruct (contextRef side s) as [p|]; [|by intros ?%elem_of_nil].
    destruct (pipelines s !! p) as [pl|]; [|by intros ?%elem_of_nil].
    destruct (running side pl); cbn; [|by intros ?%elem_of_nil].
    by intros ->%list_elem_of_singleton. }
  unfold disconnect.
  apply emitsOnly_andThen; [apply Hclose|].
  apply emitsOnly_andThen; [apply Hclose|].
  apply emitsOnly_andThen.
  { intros s e. rewrite stopAllActive_spec. cbn.
    by intros (i & -> & _)%list_elem_of_fmap. }
  apply emitsOnly_andThen.
  { intros s e. rewrite stopAnalyzing_spec. cbn.
    destruct (animationFrameRef s) as [[|n]|];
      try by intros ?%elem_of_nil.
    by intros ->%list_elem_of_singleton. }
  by repeat quiet_step.
Qed.

Lemma updateVolumes_no_send vin vout :
  emitsOnly (λ x, isSend x = false) (updateVolumes (Blob:=Blob) vin vout).
Proof.
  intros s e. cbn. by intros ->%list_elem_of_singleton.
Qed.

Lemma handle_no_send e :
  (∀ p inputData, e ≠ AudioProcess p inputData) →
  emitsOnly (λ x, isSend x = false) (handle createPcmBlob decodeAudio e).
Proof.
  intros Hne. destruct e; cbn [handle].
  - unfold connect. destruct apiKey; cbn [negb]; [|by quiet_step].
    apply emitsOnly_tryCatch; [|by repeat quiet_step].
    do 3 (apply emitsOnly_andThen; [by destruct micGranted; quiet_step|]).
    intros s e. cbn. rewrite !elem_of_cons.
    intros [->|[->|?%elem_of_nil]]; done.
  - apply disconnect_no_send.
  - unfold onopen. by repeat quiet_step.
  - unfold onmessage. apply emitsOnly_andThen.
    + intros s e. unfold handleAudioOutput.
      destruct (inlineData message) as [payload|];
        [|by intros ?%elem_of_nil].
      destruct (truthy payload); [|by intros ?%elem_of_nil].
      destruct (decodeAudio payload); [|by intros ?%elem_of_nil].
      unfold andThen at 1.
      destruct (num_lt _ _); cbn; by intros ->%list_elem_of_singleton.
    + intros s e. destruct (interrupted message) eqn:Hint.
      * rewrite handleInterruption_spec by done. cbn.
        intros [->|(i & -> & _)%list_elem_of_fmap]%elem_of_cons; done.
      * rewrite handleInterruption_skip by done. by intros ?%elem_of_nil.
  - unfold onclose. apply emitsOnly_andThen;
      [by quiet_step|apply disconnect_no_send].
  - unfold onerror. do 2 (apply emitsOnly_andThen; [by quiet_step|]).
    apply disconnect_no_send.
  - by destruct (Hne p inputData).
  - apply emitsOnly_silent. done.
  - unfold animationFrame. apply emitsOnly_andThen;
      [by quiet_step|apply updateVolumes_no_send].
Qed.

Lemma connect_unfold voiceName vin vout s :
  let r := connect (Blob:=Blob) voiceName true true vin vout s in
  state (final r) = mkLiveSessionState (isConnected (state s)) true None ∧
  audioContextRef (final r) = Some (length (pipelines s)) ∧
  outputContextRef (final r) = Some (length (pipelines s)) ∧
  pipelines (final r) = (pipelines s ++ [newPipeline])%list.
Proof. by destruct s. Qed.

(** Only [onopen] installs an [onaudioprocess] handler. *)
Lemma disconnect_handlers ps0 :
  preserves (handlersFrom ps0) (disconnect (T:=T) (Blob:=Blob)).
Proof.
  assert (∀ side, preserves (handlersFrom ps0)
                    (closeAndForget (T:=T) (Blob:=Blob) side)) as Hclose.
  { intros side s Hs. unfold closeAndForget.
    destruct (contextRef side s) as [p|]; [|done].
    apply preserves_andThen; [| |done].
    - clear s Hs. intros s Hs. unfold closeContext.
      destruct (pipelines s !! p) as [pl|] eqn:Hp; [|done].
      destruct (running side pl); [|done]. cbn.
      intros q pl' Hq Hpl'. cbn in Hq.
      destruct (decide (p = q)) as [->|Hne].
      + rewrite list_lookup_insert_eq in Hq by (by eapply lookup_lt_Some).
        injection Hq as <-. apply (Hs q pl Hp). by destruct side.
      + rewrite list_lookup_insert_ne in Hq by done. by apply (Hs q pl').
    - apply preserves_modify. by intros ? ?; destruct side. }
  unfold disconnect.
  apply preserves_andThen; [apply Hclose|].
  apply preserves_andThen; [apply Hclose|].
  apply preserves_andThen.
  { intros s Hs. by rewrite stopAllActive_spec. }
  apply preserves_andThen.
  { intros s Hs. by rewrite stopAnalyzing_spec. }
  apply preserves_andThen; by apply preserves_modify.
Qed.

Lemma connect_handlers ps0 voiceName apiKey micGranted vin vout :
  preserves (handlersFrom ps0)
    (connect (Blob:=Blob) voiceName apiKey micGranted vin vout).
Proof.
  intros s Hs. destruct apiKey; [destruct micGranted|]; [|done..].
  destruct (connect_unfold voiceName vin vout s) as (_ & _ & _ & Hps).
  intros p pl Hp Hpl. rewrite Hps in Hp.
  apply lookup_app_Some in Hp as [Hp|[_ Hp]]; [by apply (Hs p pl)|].
  destruct (p - length (pipelines s)); [|done].
  cbn in Hp. by injection Hp as <-.
Qed.

Lemma handle_handlers_at e s p pl :
  pipelines (final (handle createPcmBlob decodeAudio e s)) !! p = Some pl →
  onaudioprocess pl = true →
  e = OnOpen p ∨
  ∃ pl0, pipelines s !! p = Some pl0 ∧ onaudioprocess pl0 = true.
Proof.
  assert (handlersFrom (pipelines s) s) as Hs by (intros ? ?; eauto).
  intros Hp Hpl.
  assert (∀ h : Handler T Blob,
            preserves (handlersFrom (pipelines s)) h →
            pipelines (final (h s)) !! p = Some pl →
            ∃ pl0, pipelines s !! p = Some pl0 ∧ onaudioprocess pl0 = true)
    as Hkeep.
  { intros h Hh Hp'. by apply (Hh s Hs p pl). }
  destruct e; cbn [handle] in Hp.
  - right. eapply Hkeep; [apply connect_handlers|done].
  - right. eapply Hkeep; [apply disconnect_handlers|done].
  - cbn in Hp. destruct (decide (p0 = p)) as [->|Hne]; [by left|right].
    rewrite list_lookup_alter_ne in Hp by done. by exists pl.
  - right. eapply Hkeep; [|done]. unfold onmessage.
    apply preserves_andThen.
    + intros s' Hs'.
      destruct (inlineData message) as [payload|] eqn:Hdata;
        [|by unfold handleAudioOutput; rewrite Hdata].
      destruct (truthy payload) eqn:Htruthy;
        [|by unfold handleAudioOutput; rewrite Hdata, Htruthy].
      destruct (decodeAudio payload) as [duration|] eqn:Hdec.
      * by rewrite (handleAudioOutput_spec s' p0 message payload duration).
      * by rewrite (handleAudioOutput_threw s' p0 message payload).
    + intros s' Hs'. destruct (interrupted message) eqn:Hint.
      * by rewrite handleInterruption_spec.
      * by rewrite handleInterruption_skip.
  - right. eapply Hkeep; [|done]. unfold onclose.
    apply preserves_andThen; [apply preserves_emit|apply disconnect_handlers].
  - right. eapply Hkeep; [|done]. intros s' Hs'.
    rewrite onerror_unfold. cbn zeta. cbn [final].
    by apply disconnect_handlers.
  - right. eapply Hkeep; [|done]. by intros s' Hs'.
  - right. eapply Hkeep; [|done]. by intros s' Hs'.
  - right. eapply Hkeep; [|done]. by intros s' Hs'.
Qed.

Lemma run_handlers ok es s0 s p pl :
  run createPcmBlob decodeAudio ok s0 es = Some s →
  pipelines s !! p = Some pl →
  onaudioprocess pl = true →
  (∃ pl0, pipelines s0 !! p = Some pl0 ∧ onaudioprocess pl0 = true) ∨
  OnOpen p ∈ es.
Proof.
  revert s0. induction es as [|e es IH]; intros s0 Hrun Hp Hpl; cbn in Hrun.
  - injection Hrun as <-. left. by exists pl.
  - destruct (ok s0 e); [|done].
    destruct (IH _ Hrun Hp Hpl) as [(pl1 & Hp1 & Hpl1)|Hin].
    + destruct (handle_handlers_at e s0 p pl1 Hp1 Hpl1) as [->|Hold].
      * right. apply elem_of_cons. by left.
      * by left.
    + right. apply elem_of_cons. by right.
Qed.

(** The context refs designate running contexts in every state a run
    reaches, whatever the order in which the events arrive, as long as each
    handler runs to completion. *)
Lemma handle_refsRunning e :
  preserves refsRunning (handle createPcmBlob decodeAudio e).
Proof.
  intros s Hs. destruct e; cbn [handle].
  - destruct apiKey; [destruct micGranted|]; [|done..].
    destruct (connect_unfold voiceName vin vout s) as (_ & Ha & Ho & Hps).
    unfold refsRunning, refRunning. rewrite Ha, Ho, Hps.
    split; intros p [= <-]; exists newPipeline;
      by rewrite list_lookup_middle.
  - rewrite disconnect_spec by done. apply disconnected_refsRunning.
  - destruct Hs as [Hin Hout]. split; intros q Hq; cbn in *.
    + destruct (Hin q Hq) as (pl & Hpl & Hr).
      destruct (decide (p = q)) as [->|Hne].
      * rewrite list_lookup_alter_eq, Hpl. cbn. by eexists.
      * rewrite list_lookup_alter_ne by done. by eexists.
    + destruct (Hout q Hq) as (pl & Hpl & Hr).
      destruct (decide (p = q)) as [->|Hne].
      * rewrite list_lookup_alter_eq, Hpl. cbn. by eexists.
      * rewrite list_lookup_alter_ne by done. by eexists.
  - revert s Hs. unfold onmessage. apply preserves_andThen.
    + intros s Hs.
      destruct (inlineData message) as [payload|] eqn:Hdata;
        [|by unfold handleAudioOutput; rewrite Hdata].
      destruct (truthy payload) eqn:Htruthy;
        [|by unfold handleAudioOutput; rewrite Hdata, Htruthy].
      destruct (decodeAudio payload) as [duration|] eqn:Hdec.
      * by rewrite (handleAudioOutput_spec s p message payload duration).
      * by rewrite (handleAudioOutput_threw s p message payload).
    + intros s Hs. destruct (interrupted message) eqn:Hint.
      * by rewrite handleInterruption_spec.
      * by rewrite handleInterruption_skip.
  - cbn. rewrite disconnect_spec by done. apply disconnected_refsRunning.
  - rewrite onerror_unfold. cbn zeta. cbn [final].
    rewrite disconnect_spec by done. apply disconnected_refsRunning.
  - done.
  - done.
  - done.
Qed.

Lemma run_refsRunning es s :
  run createPcmBlob decodeAudio enabled initial es = Some s → refsRunning s.
Proof.
  apply (run_invariant refsRunning).
  - intros s' e Hs' _. by apply handle_refsRunning.
  - split; by intros p.
Qed.

(** A run over [es1 ++ es2] is a run over [es1] followed by a run over
    [es2]. *)
Lemma run_app ok es1 es2 s0 s :
  run createPcmBlob decodeAudio ok s0 (es1 ++ es2)%list = Some s →
  ∃ s1, run createPcmBlob decodeAudio ok s0 es1 = Some s1 ∧
        run createPcmBlob decodeAudio ok s1 es2 = Some s.
Proof.
  revert s0. induction es1 as [|e es1 IH]; intros s0 Hrun; cbn in *.
  - by exists s0.
  - destruct (ok s0 e); [|done]. by apply IH.
Qed.

(** C8, as the code has it: whatever the order in which [connect],
    [disconnect] and the callbacks occur, a handler passes a frame to the
    transport only if it is [onaudioprocess] of a pipeline [p] whose open
    event occurred earlier, and that open event set the status to connected
    (and not connecting) in the step that installed the handler. Nothing is
    said of the status at the time of the frame: [onaudioprocess] does not
    read it. *)
Theorem frames_only_after_open es s e :
  run createPcmBlob decodeAudio enabled initial es = Some s →
  enabled s e = true →
  (∃ x, x ∈ emitted (handle createPcmBlob decodeAudio e s) ∧
        isSend x = true) →
  ∃ p inputData,
    e = AudioProcess p inputData ∧
    emitted (handle createPcmBlob decodeAudio e s)
      = [SendRealtimeInput p (createPcmBlob inputData)] ∧
    ∃ es1 es2 s1,
      es = (es1 ++ OnOpen p :: es2)%list ∧
      run createPcmBlob decodeAudio enabled initial es1 = Some s1 ∧
      enabled s1 (OnOpen p) = true ∧
      isConnected (state (final (onopen (Blob:=Blob) p s1))) = true ∧
      isConnecting (state (final (onopen (Blob:=Blob) p s1))) = false.
Proof.
  intros Hrun Hen (x & Hx & Hsend).
  assert (∃ p inputData, e = AudioProcess p inputData) as (p & inputData & ->).
  { destruct e; try by eauto.
    all: apply handle_no_send in Hx; [congruence|done]. }
  exists p, inputData. split_and!; [done..|].
  cbn in Hen. destruct (pipelines s !! p) as [pl|] eqn:Hp; [|done].
  apply andb_true_iff in Hen as [_ Hh].
  destruct (run_handlers enabled es initial s p pl Hrun Hp Hh)
    as [(pl0 & Hp0 & _)|Hin]; [done|].
  apply list_elem_of_split in Hin as (es1 & es2 & ->).
  apply run_app in Hrun as (s1 & Hrun1 & Hrun2).
  exists es1, es2, s1. split_and!; [done..| |done|done].
  cbn [run] in Hrun2. by destruct (enabled s1 (OnOpen p)).
Qed.

End HookFacts.

(** ** The PCM wire format *)

Section CodecFacts.
Import PcmCodec.
Local Open Scope Z_scope.

(** The two bytes of a 16-bit signed integer read back as that integer. *)
Lemma int16_roundtrip n :
  -32768 <= n <= 32767 →
  int16OfBytes (Z.land (n mod 65536) 255) (Z.shiftr (n mod 65536) 8) = n.
Proof.
  intros Hn. unfold int16OfBytes.
  change 255 with (Z.ones 8).
  rewrite <- Z.ldiff_ones_r by lia.
  rewrite Z.lor_comm, Z.lor_ldiff_and.
  destruct (Z_lt_le_dec n 0).
  - replace (n mod 65536) with (n + 65536).
    + destruct (32768 <=? n + 65536) eqn:E; [lia|]. apply Z.leb_gt in E. lia.
    + rewrite <- (Z.mod_add n 1 65536) by lia. rewrite Z.mod_small; lia.
  - rewrite Z.mod_small by lia.
    destruct (32768 <=? n) eqn:E; [|done]. apply Z.leb_le in E. lia.
Qed.

Lemma clamp16_range n : -32768 <= clamp16 n <= 32767.
Proof. unfold clamp16. lia. Qed.

Local Open Scope Q_scope.

(** Clamping moves an integer toward any value inside the range. *)
Lemma clamp16_closer (r : Z) (y : Q) :
  - inject_Z 32767 <= y <= inject_Z 32767 →
  Qabs (inject_Z r - y) < 1 →
  Qabs (inject_Z (clamp16 r) - y) < 1.
Proof.
  intros Hy Hr. apply Qabs_Qlt_condition in Hr. apply Qabs_Qlt_condition.
  unfold clamp16.
  destruct (Z.max_spec (-32768) (Z.min 32767 r)) as [[H1 ->]|[H1 ->]];
    destruct (Z.min_spec 32767 r) as [[H2 H3]|[H2 H3]];
    rewrite ?H3 in *; try lia.
  - assert (inject_Z 32767 < inject_Z r) by (rewrite <- Zlt_Qlt; lia).
    set (B := inject_Z r) in *. unfold inject_Z in *. lra.
  - done.
  - assert (inject_Z r <= inject_Z (-32768)) by (rewrite <- Zle_Qle; lia).
    set (B := inject_Z r) in *. unfold inject_Z in *. lra.
Qed.

(** Truncation is off by less than one. *)
Lemma truncate_error q : Qabs (inject_Z (truncate q) - q) < 1.
Proof.
  apply Qabs_Qlt_condition. destruct q as [a b]. unfold truncate. cbn.
  pose proof (Z.quot_rem' a (Z.pos b)) as Hqr.
  assert (- Z.pos b < Z.rem a (Z.pos b) < Z.pos b)%Z as Hrem.
  { pose proof (Z.rem_bound_abs a (Z.pos b)). lia. }
  unfold Qlt, Qminus, Qplus, Qopp, inject_Z. cbn [Qnum Qden].
  rewrite !Pos.mul_1_l. split; nia.
Qed.

Variable toInteger : Q → Z.
Hypothesis toInteger_error : ∀ q, Qabs (inject_Z (toInteger q) - q) < 1.

Lemma sample_error x :
  -1 <= x <= 1 →
  Qabs (inject_Z (encodeSample toInteger x) / inject_Z 32767 - x)
    <= 1 # 32767.
Proof using toInteger_error.
  intros Hx. unfold encodeSample.
  assert (Qabs (inject_Z (clamp16 (toInteger (x * inject_Z 32767)))
                - x * inject_Z 32767) < 1) as Hn.
  { apply clamp16_closer; [|apply toInteger_error]. unfold inject_Z. lra. }
  apply Qabs_Qlt_condition in Hn. apply Qabs_Qle_condition.
  set (n := inject_Z (clamp16 (toInteger (x * inject_Z 32767)))) in *.
  unfold Qdiv. change (/ inject_Z 32767) with (1 # 32767).
  unfold inject_Z in Hn. lra.
Qed.

Lemma decode_encode samples :
  decode (encode toInteger samples) =
    Some (map (λ x, inject_Z (encodeSample toInteger x) / inject_Z 32767)
            samples).
Proof.
  induction samples as [|x xs IH]; [done|].
  cbn [encode flat_map int16Bytes app] in *. cbn [decode].
  fold (encode toInteger xs). rewrite IH. unfold decodeSample.
  by rewrite int16_roundtrip by apply clamp16_range.
Qed.

(** C7: for every sequence of samples in [-1,1], decoding its encoding
    succeeds and yields as many samples, each within 1/32767 of the
    original; this for any conversion to an integer that is off by less
    than one (truncation, floor, ceiling, rounding to nearest). *)
Theorem decode_encode_within_quantum samples :
  Forall (λ x, -1 <= x <= 1) samples →
  ∃ out, decode (encode toInteger samples) = Some out ∧
         Forall2 (λ x y, Qabs (y - x) <= 1 # 32767) samples out.
Proof using toInteger_error.
  intros Hrange. eexists. split; [apply decode_encode|].
  induction Hrange as [|x xs Hx _ IH]; cbn; constructor; [|done].
  by apply sample_error.
Qed.

End CodecFacts.

(** ** The properties on the concrete session *)

Section ScenarioChecks.
Import Scenario.
Local Open Scope Q_scope.

Lemma connected_refsRunning : refsRunning connected.
Proof.
  split; intros p [= <-]; exists (mkPipeline true true true true);
    by split.
Defined.

Lemma playing_refsRunning : refsRunning playing.
Proof.
  split; intros p [= <-]; exists (mkPipeline true true true true);
    by split.
Defined.

(** Three chunks of half a second arrive at 2.0, 2.1 and 2.5 on a fresh
    session: they are laid end to end from 2.0. *)
Lemma gapless_playback_witness :
  playAll (Blob:=nat) decodeAudio 0
    [("a", 2); ("b", 21 # 10); ("c", 5 # 2)] connected
  = backToBack 2 [1 # 2; 1 # 2; 1 # 2].
Proof.
  apply (gapless_playback (Blob:=nat) decodeAudio 0 "a" 2 (1 # 2)
           [("b", 21 # 10); ("c", 5 # 2)] [1 # 2; 1 # 2] connected).
  - split; reflexivity.
  - repeat constructor.
  - right. reflexivity.
  - vm_compute. repeat split.
Defined.

(** The scenario of the specification: a chunk of 0.5s handled at device
    time 2.0 while the cursor is 0 starts at 2.0 and leaves the cursor at
    2.5. *)
Lemma stalled_chunk_witness :
  let r := handleAudioOutput (Blob:=nat) decodeAudio 0
             (audioMessage "chunk") 2 connected in
  nextStartTimeRef connected = 0 ∧
  completion r = Returned ∧
  emitted r = [StartSource 0 2] ∧
  sources (final r) = [mkSource 0 2 (1 # 2) false false] ∧
  nextStartTimeRef (final r) = 5 # 2 ∧
  (interrupted (audioMessage "chunk") = false →
   onmessage decodeAudio 0 (audioMessage "chunk") 2 connected = r).
Proof.
  split; [reflexivity|].
  exact (stalled_chunk_starts_now (Blob:=nat) decodeAudio connected 0
           (audioMessage "chunk") "chunk" (1 # 2) 2
           eq_refl eq_refl eq_refl eq_refl).
Defined.

(** Right after, the transport delivers the interruption: the source is
    stopped, ActiveSources is empty and the cursor is back at 0; a chunk
    handled at 3.0 then starts at 3.0. *)
Lemma interruption_witness :
  let r := handleInterruption (Blob:=nat) (mkMessage None true) playing in
  activeSourcesRef playing = [0%nat] ∧
  StopSource 0 ∈ emitted r ∧
  activeSourcesRef (final r) = [] ∧
  nextStartTimeRef (final r) = 0 ∧
  emitted (handleAudioOutput (Blob:=nat) decodeAudio 0
             (audioMessage "next") 3 (final r)) = [StartSource 1 3].
Proof.
  split; [reflexivity|].
  destruct (interruption_resets (Blob:=nat) decodeAudio playing
              (mkMessage None true) eq_refl)
    as (_ & Hstop & Hempty & Hzero & Hnext & _).
  split_and!; [|exact Hempty|exact Hzero|].
  - apply (Hstop 0%nat (mkSource 0 2 (1 # 2) false false));
      [apply list_elem_of_singleton|]; reflexivity.
  - apply (Hnext 0%nat (audioMessage "next") "next" (1 # 2) 3);
      try reflexivity.
    right. reflexivity.
Defined.

(** [disconnect] while a chunk is playing, then once more. *)
Lemma disconnect_idempotent_witness :
  let r := disconnect (Blob:=nat) playing in
  completion r = Returned ∧
  isConnected (state (final r)) = false ∧
  isConnecting (state (final r)) = false ∧
  inputVolume (volumes (final r)) = 0 ∧
  outputVolume (volumes (final r)) = 0 ∧
  disconnect (Blob:=nat) (final r) = mkResult Returned (final r) [] ∧
  disconnect (Blob:=nat) (T:=Q) initial = mkResult Returned initial [].
Proof.
  exact (disconnect_idempotent (Blob:=nat) playing playing_refsRunning).
Defined.

(** C5 as stated fails: after [onerror] on the connected session the
    microphone stream of its pipeline is still live. *)
Lemma onerror_keeps_microphone :
  ¬ (∀ (s : Sys Q) (p : nat),
       refsRunning s → isConnected (state s) = true →
       ∀ q pl, pipelines (final (onerror (Blob:=nat) p s)) !! q = Some pl →
               streamLive pl = false).
Proof.
  intros Hclaim.
  specialize (Hclaim connected 0%nat connected_refsRunning eq_refl 0%nat
                (mkPipeline true false false true) eq_refl).
  discriminate Hclaim.
Qed.

Lemma onerror_disconnects_witness :
  let r := onerror (Blob:=nat) 0 connected in
  isConnected (state connected) = true ∧
  isConnected (state (final r)) = false ∧
  isConnecting (state (final r)) = false ∧
  error (state (final r)) = Some "Connection error occurred."%string ∧
  pipelines (final r) = [mkPipeline true false false true].
Proof.
  pose proof (onerror_disconnects (Blob:=nat) connected 0
                connected_refsRunning)
    as (_ & Hc1 & Hc2 & _).
  split_and!; [reflexivity|exact Hc1|exact Hc2|reflexivity|reflexivity].
Defined.

(** C6 as stated fails: on a payload that does not decode the handler
    makes no console call. *)
Lemma bad_chunk_not_logged :
  ¬ (∀ (s : Sys Q) (p : nat) message payload currentTime,
       inlineData message = Some payload →
       truthy payload = true →
       decodeAudio payload = None →
       ∃ e, e ∈ emitted (onmessage (Blob:=nat) decodeAudio p message
                           currentTime s) ∧
            isConsole e = true).
Proof.
  intros Hclaim.
  destruct (Hclaim playing 0%nat (audioMessage "bad") "bad"%string 3
              eq_refl eq_refl eq_refl) as (e & He & _).
  by apply elem_of_nil in He.
Qed.

Lemma bad_chunk_dropped_witness :
  let r := onmessage (Blob:=nat) decodeAudio 0 (mkMessage (Some "bad") true)
             3 playing in
  completion r = Threw ∧ emitted r = [] ∧ final r = playing ∧
  ∀ e, enabled (final r) e = enabled playing e ∧
       handle createPcmBlob decodeAudio e (final r)
         = handle createPcmBlob decodeAudio e playing.
Proof.
  exact (bad_chunk_dropped createPcmBlob decodeAudio playing 0
           (mkMessage (Some "bad") true) "bad" 3 eq_refl eq_refl eq_refl).
Defined.

Lemma run_secondConnect :
  run createPcmBlob decodeAudio enabled initial secondConnect
    = Some leftBehind.
Proof. vm_compute. reflexivity. Defined.

(** C8 as stated fails: [connect] is called twice, the first session
    opens, and [disconnect] closes the contexts of the second pipeline only;
    the processor of the first pipeline then forwards a frame although the
    status is not connected. *)
Lemma frames_while_disconnected :
  ¬ (∀ (es : list (Event Q)) (s : Sys Q) (e : Event Q),
       run createPcmBlob decodeAudio enabled initial es = Some s →
       enabled s e = true →
       (∃ x, x ∈ emitted (handle createPcmBlob decodeAudio e s) ∧
             isSend x = true) →
       isConnected (state s) = true).
Proof.
  intros Hclaim.
  specialize (Hclaim secondConnect leftBehind (AudioProcess 0 [0])
                run_secondConnect eq_refl).
  enough (isConnected (state leftBehind) = true) as Hc by discriminate Hc.
  apply Hclaim. exists (SendRealtimeInput 0%nat 1%nat).
  split; [by apply list_elem_of_singleton|done].
Qed.

(** The frame of that run is forwarded by the pipeline whose open event is
    the third event of the run. *)
Lemma frames_only_after_open_witness :
  ∃ p inputData,
    AudioProcess 0 [0] = AudioProcess p inputData ∧
    emitted (handle createPcmBlob decodeAudio (AudioProcess 0 [0]) leftBehind)
      = [SendRealtimeInput p (createPcmBlob inputData)] ∧
    ∃ es1 es2 s1,
      secondConnect = (es1 ++ OnOpen p :: es2)%list ∧
      run createPcmBlob decodeAudio enabled initial es1 = Some s1 ∧
      enabled s1 (OnOpen p) = true ∧
      isConnected (state (final (onopen (Blob:=nat) p s1))) = true ∧
      isConnecting (state (final (onopen (Blob:=nat) p s1))) = false.
Proof.
  apply (frames_only_after_open createPcmBlob decodeAudio secondConnect
           leftBehind (AudioProcess 0 [0]) run_secondConnect eq_refl).
  exists (SendRealtimeInput 0%nat 1%nat).
  split; [by apply list_elem_of_singleton|done].
Defined.

(** The source scheduled in the scenario is live while it is in
    ActiveSources, and leaves it when it ends. *)
Lemma activeSources_witness :
  activeSourcesLive playing ∧
  activeSourcesLive (stepTo playing (SourceEnded 0)) ∧
  activeSourcesRef (stepTo playing (SourceEnded 0)) = [].
Proof.
  pose proof (activeSources_never_stale createPcmBlob decodeAudio)
    as (Hstep & Hrun & _).
  assert (activeSourcesLive playing) as Hlive.
  { apply (Hrun [Connect "Kore" true true 0 0; OnOpen 0;
                 OnMessage 0 (audioMessage "chunk") 2]).
    vm_compute. reflexivity. }
  split_and!; [exact Hlive| |reflexivity].
  apply (Hstep playing (SourceEnded 0) Hlive).
Defined.

(** Three samples through the codec with truncation. *)
Lemma decode_encode_witness :
  ∃ out, PcmCodec.decode
           (PcmCodec.encode PcmCodec.truncate [1; -1; 1 # 3]) = Some out ∧
         Forall2 (λ x y, Qabs (y - x) <= 1 # 32767) [1; -1; 1 # 3] out.
Proof.
  apply (decode_encode_within_quantum PcmCodec.truncate truncate_error).
  repeat constructor; discriminate.
Defined.

End ScenarioChecks.

(** * Further properties of the hook *)

Section MoreHookFacts.
Context {T : Type} `{JsNumber T} {Blob : Type}.
Variable createPcmBlob : list T → Blob.
Variable decodeAudio : string → option T.
Implicit Types (s : Sys T) (p i : nat).

Lemma emitted_andThen (h k : Handler T Blob) s e :
  e ∈ emitted ((h ;; k) s) →
  e ∈ emitted (h s) ∨ e ∈ emitted (k (final (h s))).
Proof.
  unfold andThen. destruct (completion (h s)); cbn; [|by left].
  by intros ?%elem_of_app.
Qed.

Lemma startOf_not_early s currentTime :
  (∀ a : T, num_lt a a = false) →
  (∀ a b : T, num_lt a b = true → num_lt b a = false) →
  num_lt (startOf s currentTime) currentTime = false ∧
  num_lt (startOf s currentTime) (nextStartTimeRef s) = false.
Proof.
  intros Hirr Hasym. unfold startOf.
  destruct (num_lt (nextStartTimeRef s) currentTime) eqn:Hlt; auto.
Qed.

(** X1: Whatever the message and the state, a source that [onmessage] starts
    is started neither before the device time at which the message is
    handled nor before the cursor, that is, before the end of the source
    scheduled last; this for any number type on which [<] is irreflexive
    and asymmetric. *)
Theorem chunk_never_early s p message currentTime i t :
  (∀ a : T, num_lt a a = false) →
  (∀ a b : T, num_lt a b = true → num_lt b a = false) →
  StartSource i t ∈
    emitted (onmessage (Blob:=Blob) decodeAudio p message currentTime s) →
  num_lt t currentTime = false ∧ num_lt t (nextStartTimeRef s) = false.
Proof.
  intros Hirr Hasym Hin. unfold onmessage in Hin.
  apply emitted_andThen in Hin as [Hin|Hin].
  - destruct (inlineData message) as [payload|] eqn:Hdata;
      [|unfold handleAudioOutput in Hin; rewrite Hdata in Hin;
        by apply elem_of_nil in Hin].
    destruct (truthy payload) eqn:Htruthy;
      [|unfold handleAudioOutput in Hin; rewrite Hdata, Htruthy in Hin;
        by apply elem_of_nil in Hin].
    destruct (decodeAudio payload) as [duration|] eqn:Hdec.
    + rewrite (handleAudioOutput_spec decodeAudio s p message payload
                 duration) in Hin by done.
      apply list_elem_of_singleton in Hin. injection Hin as _ ->.
      by apply startOf_not_early.
    + rewrite (handleAudioOutput_threw decodeAudio s p message payload)
        in Hin by done.
      by apply elem_of_nil in Hin.
  - destruct (interrupted message) eqn:Hint.
    + rewrite handleInterruption_spec in Hin by done.
      apply elem_of_cons in Hin as [Hin|Hin]; [done|].
      by apply list_elem_of_fmap in Hin as (j & Hj & _).
    + rewrite handleInterruption_skip in Hin by done.
      by apply elem_of_nil in Hin.
Qed.

(** X2: A message that carries both a chunk and the interruption flag: the
    audio path runs first, so the chunk's source is started and then stopped
    by the same handler; ActiveSources ends empty and the cursor at zero. *)
Theorem chunk_with_interruption s p message payload duration currentTime :
  inlineData message = Some payload →
  truthy payload = true →
  decodeAudio payload = Some duration →
  interrupted message = true →
  let r := onmessage (Blob:=Blob) decodeAudio p message currentTime s in
  let source := length (sources s) in
  completion r = Returned ∧
  final r = afterChunkInterrupted p currentTime duration s ∧
  StartSource source (startOf s currentTime) ∈ emitted r ∧
  StopSource source ∈ emitted r ∧
  sources (final r) !! source =
    Some (mkSource p (startOf s currentTime) duration true false) ∧
  activeSourcesRef (final r) = [] ∧
  nextStartTimeRef (final r) = num_zero.
Proof.
  intros Hdata Htruthy Hdec Hint. cbn zeta. unfold onmessage.
  erewrite andThen_eq;
    [|by apply handleAudioOutput_spec with payload
     |by apply handleInterruption_spec].
  cbn [completion final emitted]. split_and!; try done.
  - apply elem_of_cons. by left.
  - apply elem_of_cons. right. apply elem_of_cons. right.
    apply list_elem_of_fmap. exists (length (sources s)). split; [done|].
    apply list_elem_of_filter. cbn. split.
    + rewrite length_app. cbn. lia.
    + unfold setAdd. destruct (decide _); [done|].
      apply elem_of_app. right. by apply list_elem_of_singleton.
  - cbn -[stopAll]. erewrite stopAll_lookup by (by apply list_lookup_middle).
    rewrite decide_True; [done|].
    unfold setAdd. destruct (decide _); [done|].
    apply elem_of_app. right. by apply list_elem_of_singleton.
Qed.

Lemma onmessage_falsy_payload s p message payload currentTime :
  inlineData message = Some payload →
  truthy payload = false →
  onmessage (Blob:=Blob) decodeAudio p message currentTime s
    = handleInterruption message s.
Proof.
  intros Hdata Htruthy. unfold onmessage, andThen, handleAudioOutput.
  rewrite Hdata, Htruthy. cbn. by destruct (handleInterruption message s).
Qed.

(** X3: The payload is tested for truthiness before it is decoded: a message
    whose payload is the empty string is handled as a message without audio,
    also when decoding the empty string would throw. *)
Theorem empty_payload_ignored s p message payload currentTime :
  inlineData message = Some payload →
  truthy payload = false →
  payload = EmptyString ∧
  onmessage (Blob:=Blob) decodeAudio p message currentTime s
    = handleInterruption message s.
Proof.
  intros Hdata Htruthy. split; [by destruct payload|].
  by apply onmessage_falsy_payload with payload.
Qed.

(** X4: The end of a source removes that source from ActiveSources and no
    other; an [ended] event that arrives late, for a source an interruption
    or [disconnect] already dropped, leaves ActiveSources as it is. *)
Theorem ended_removes_only_itself s i :
  (∀ j, j ∈ activeSourcesRef (final (sourceEnds (Blob:=Blob) i s)) ↔
        j ∈ activeSourcesRef s ∧ j ≠ i) ∧
  (i ∉ activeSourcesRef s →
   activeSourcesRef (final (sourceEnds (Blob:=Blob) i s))
     = activeSourcesRef s).
Proof.
  rewrite sourceEnds_spec. cbn. unfold setDelete. split.
  - intros j. rewrite list_elem_of_filter. tauto.
  - intros Hi. induction (activeSourcesRef s) as [|x xs IH]; [done|].
    apply not_elem_of_cons in Hi as [Hne Hi].
    rewrite filter_cons_True by done. by rewrite IH.
Qed.

(** X5: A second interruption right after the first finds nothing to stop: it
    logs and leaves the state as it is. *)
Theorem interruption_idempotent s message :
  interrupted message = true →
  let s1 := final (handleInterruption (Blob:=Blob) message s) in
  handleInterruption (Blob:=Blob) message s1 =
    mkResult Returned s1 [ConsoleLog "Interrupted by user"].
Proof.
  intros Hint. cbn zeta. rewrite !handleInterruption_spec by done.
  done.
Qed.

(** X6: A [connect] that fails, for want of an API key or because the
    microphone is refused, returns normally with a non-empty [error] and has
    created nothing: no pipeline, no ref, no animation frame, no live
    session; the cursor and [isConnected] are as before. Without the key not
    even [getUserMedia] is called and [isConnecting] keeps its value; when
    the microphone is refused [isConnecting] ends false. *)
Theorem failed_connect_creates_nothing s voiceName apiKey micGranted vin vout :
  apiKey = false ∨ micGranted = false →
  let r := connect (Blob:=Blob) voiceName apiKey micGranted vin vout s in
  completion r = Returned ∧
  (∃ msg, error (state (final r)) = Some msg ∧ truthy msg = true) ∧
  isConnected (state (final r)) = isConnected (state s) ∧
  (apiKey = true → isConnecting (state (final r)) = false) ∧
  (apiKey = false →
   isConnecting (state (final r)) = isConnecting (state s) ∧
   emitted r = []) ∧
  pipelines (final r) = pipelines s ∧
  audioContextRef (final r) = audioContextRef s ∧
  outputContextRef (final r) = outputContextRef s ∧
  nextStartTimeRef (final r) = nextStartTimeRef s ∧
  pendingFrames (final r) = pendingFrames s ∧
  (∀ e, e ∈ emitted r → ∀ p v, e ≠ LiveConnect p v).
Proof.
  intros Hfail. cbn zeta.
  destruct apiKey; [destruct micGranted; [by destruct Hfail|]|]; cbn.
  - split_and!; try done; [by eexists|].
    intros e He p v ->. rewrite !elem_of_cons in He.
    destruct He as [?|[?|?%elem_of_nil]]; done.
  - split_and!; try done; [by eexists|].
    by intros e He%elem_of_nil.
Qed.

(** X7: A [connect] that succeeds asks for the microphone, starts the volume
    loop and opens one live session for the new pipeline; it sets the cursor
    to zero and the status to connecting with no error, and leaves
    ActiveSources alone. No frame can be forwarded yet; once [onopen] of the
    new pipeline has run the status is connected with no error and frames
    are forwarded. *)
Theorem connect_then_open s voiceName vin vout :
  let r := connect (Blob:=Blob) voiceName true true vin vout s in
  let p := length (pipelines s) in
  let s2 := final (onopen (Blob:=Blob) p (final r)) in
  completion r = Returned ∧
  emitted r = [GetUserMedia; RequestAnimationFrame (nextFrameId s);
               LiveConnect p voiceName] ∧
  nextStartTimeRef (final r) = num_zero ∧
  activeSourcesRef (final r) = activeSourcesRef s ∧
  state (final r) = mkLiveSessionState (isConnected (state s)) true None ∧
  state s2 = mkLiveSessionState true false None ∧
  pipelines s2 !! p = Some (mkPipeline true true true true) ∧
  ∀ inputData,
    enabled (final r) (AudioProcess p inputData) = false ∧
    enabled s2 (AudioProcess p inputData) = true.
Proof.
  cbn zeta. destruct s as [st vol ain aout cur act ian oan fr ps ss pf nf].
  cbn. split_and!; try done.
  - rewrite list_lookup_alter_eq, list_lookup_middle by done. done.
  - intros inputData.
    rewrite list_lookup_alter_eq, !list_lookup_middle by done. done.
Qed.

(** X8: In any state, a handler fails in two cases only: [onmessage] on a
    non-empty payload that does not decode, and [disconnect] (called
    directly, or by [onclose] or [onerror]) when a context ref designates a
    context that is closed already, where [close()] rejects. [connect],
    [onopen], [onaudioprocess], [onended] and the volume loop always
    return. *)
Theorem handlers_fail_only_when s e :
  completion (handle createPcmBlob decodeAudio e s) = Threw →
  (∃ p message currentTime payload,
     e = OnMessage p message currentTime ∧
     inlineData message = Some payload ∧
     truthy payload = true ∧
     decodeAudio payload = None) ∨
  ((e = Disconnect ∨ (∃ p, e = OnClose p) ∨ (∃ p, e = OnError p)) ∧
   ¬ refsRunning s).
Proof.
  intros Hthrew. destruct e; cbn [handle] in Hthrew.
  - destruct apiKey; [destruct micGranted|]; by destruct s.
  - right. split; [by left|]. intros Hrun.
    by rewrite disconnect_spec in Hthrew.
  - done.
  - left. destruct (inlineData message) as [payload|] eqn:Hdata.
    + destruct (truthy payload) eqn:Htruthy.
      * destruct (decodeAudio payload) as [duration|] eqn:Hdec;
          [|by eauto 10].
        unfold onmessage in Hthrew.
        destruct (interrupted message) eqn:Hint.
        -- erewrite andThen_eq in Hthrew;
             [|by apply handleAudioOutput_spec with payload
              |by apply handleInterruption_spec].
           done.
        -- erewrite andThen_eq in Hthrew;
             [|by apply handleAudioOutput_spec with payload
              |by apply handleInterruption_skip].
           done.
      * rewrite (onmessage_falsy_payload s p message payload) in Hthrew
          by done.
        destruct (interrupted message) eqn:Hint.
        -- by rewrite handleInterruption_spec in Hthrew.
        -- by rewrite handleInterruption_skip in Hthrew.
    + rewrite onmessage_no_audio in Hthrew by done.
      destruct (interrupted message) eqn:Hint.
      * by rewrite handleInterruption_spec in Hthrew.
      * by rewrite handleInterruption_skip in Hthrew.
  - right. split; [by eauto|]. intros Hrun. unfold onclose in Hthrew.
    erewrite andThen_eq in Hthrew; [|reflexivity|by apply disconnect_spec].
    done.
  - right. split; [by eauto|]. intros Hrun.
    rewrite onerror_unfold in Hthrew. cbn zeta in Hthrew.
    by rewrite disconnect_spec in Hthrew.
  - done.
  - by rewrite sourceEnds_spec in Hthrew.
  - done.
Qed.

(** What [disconnect] leaves of the pipelines: the contexts the two refs
    designate are closed, every other pipeline is as it was. *)
Lemma disconnected_lookup s q :
  pipelines (disconnected s) !! q =
    (λ pl, if decide (outputContextRef s = Some q)
           then closeSide OutputSide pl else pl)
      <$> ((λ pl, if decide (audioContextRef s = Some q)
                  then closeSide InputSide pl else pl)
             <$> pipelines s !! q).
Proof. cbn. by rewrite !closeRef_lookup. Qed.

Lemma disconnected_input_closed s q pl :
  audioContextRef s = Some q →
  pipelines (disconnected s) !! q = Some pl →
  inputCtxRunning pl = false.
Proof.
  intros Hq. rewrite disconnected_lookup.
  destruct (pipelines s !! q) as [pl0|]; [|done]. cbn.
  destruct (decide (audioContextRef s = Some q)); [|done].
  by destruct (decide (outputContextRef s = Some q)); intros [= <-].
Qed.

(** X10: When the context refs designate running contexts, [disconnect]
    silences the pipeline they designate: afterwards the processor of the
    pipeline [audioContextRef] designated cannot fire, so it forwards no
    frame; the animation frame [animationFrameRef] held is no longer
    pending, so the volume loop it would continue is cancelled; both refs
    are null, ActiveSources is empty, the volumes are zero and the status
    is neither connected nor connecting. A pipeline neither ref designates
    is left as it was. *)
Theorem disconnect_silences_designated s :
  refsRunning s →
  let s' := final (disconnect (Blob:=Blob) s) in
  (∀ q inputData, audioContextRef s = Some q →
     enabled s' (AudioProcess q inputData) = false) ∧
  (∀ n vin vout, animationFrameRef s = Some (S n) →
     enabled s' (AnimationFrame (S n) vin vout) = false) ∧
  audioContextRef s' = None ∧
  outputContextRef s' = None ∧
  activeSourcesRef s' = [] ∧
  volumes s' = mkAudioVolumeState num_zero num_zero ∧
  isConnected (state s') = false ∧
  isConnecting (state s') = false ∧
  (∀ q, audioContextRef s ≠ Some q → outputContextRef s ≠ Some q →
     pipelines s' !! q = pipelines s !! q).
Proof.
  intros Hrun. cbn zeta. rewrite disconnect_spec by done. cbn [final].
  split_and!; [|..|done|done|done|done|done|done|].
  - intros q inputData Hq. cbn -[disconnected].
    destruct (pipelines (disconnected s) !! q) as [pl|] eqn:Hpl; [|done].
    by rewrite (disconnected_input_closed s q pl).
  - intros n vin vout Hn. cbn. rewrite Hn.
    apply bool_decide_eq_false. rewrite list_elem_of_filter.
    by intros [? _].
  - intros q Hin Hout. rewrite disconnected_lookup.
    destruct (pipelines s !! q) as [pl|]; [|done]. cbn.
    by rewrite !decide_False.
Qed.

(** X11: [onopen] does not check that its pipeline is still in use: when
    [disconnect] ran on the pipeline [q] the refs designated and the
    transport, which [disconnect] does not close, then delivers an open
    event, the status becomes connected and not connecting although both
    context refs are null and the processor of [q] cannot fire, so that
    [q] forwards no frame. *)
Theorem late_open_after_disconnect s p q :
  refsRunning s →
  audioContextRef s = Some q →
  let s' := final (onopen (Blob:=Blob) p
                     (final (disconnect (Blob:=Blob) s))) in
  isConnected (state s') = true ∧
  isConnecting (state s') = false ∧
  audioContextRef s' = None ∧
  outputContextRef s' = None ∧
  ∀ inputData, enabled s' (AudioProcess q inputData) = false.
Proof.
  intros Hrun Hq. cbn zeta. rewrite disconnect_spec by done. cbn [final].
  split_and!; [done..|]. intros inputData.
  pose proof (disconnected_input_closed s q) as Hclosed.
  cbn -[disconnected].
  destruct (decide (p = q)) as [->|Hne].
  - rewrite list_lookup_alter_eq.
    destruct (pipelines (disconnected s) !! q) as [pl|]; [|done].
    cbn. by rewrite (Hclosed pl).
  - rewrite list_lookup_alter_ne by done.
    destruct (pipelines (disconnected s) !! q) as [pl|]; [|done].
    by rewrite (Hclosed pl).
Qed.

End MoreHookFacts.

(** ** The further properties on the concrete session *)

Section MoreScenarioChecks.
Import Scenario.
Local Open Scope Q_scope.

Lemma Q_lt_irrefl (a : Q) : num_lt a a = false.
Proof.
  cbn. apply negb_false_iff. apply Qle_bool_iff. apply Qle_refl.
Qed.

Lemma Q_lt_asym (a b : Q) : num_lt a b = true → num_lt b a = false.
Proof.
  cbn. intros Hab%negb_true_iff. apply negb_false_iff. apply Qle_bool_iff.
  destruct (Qlt_le_dec b a) as [Hlt|Hle]; [|done].
  apply Qlt_le_weak in Hlt. apply Qle_bool_iff in Hlt. congruence.
Qed.

Lemma chunk_never_early_witness :
  num_lt 2 2 = false ∧ num_lt 2 (nextStartTimeRef connected) = false.
Proof.
  apply (chunk_never_early (Blob:=nat) decodeAudio connected 0
           (audioMessage "chunk") 2 0%nat 2 Q_lt_irrefl Q_lt_asym).
  apply list_elem_of_singleton. reflexivity.
Defined.

Lemma chunk_with_interruption_witness :
  let r := onmessage (Blob:=nat) decodeAudio 0 (mkMessage (Some "late") true)
             3 playing in
  completion r = Returned ∧
  final r = afterChunkInterrupted 0 3 (1 # 2) playing ∧
  StartSource 1 (startOf playing 3) ∈ emitted r ∧
  StopSource 1 ∈ emitted r ∧
  sources (final r) !! 1%nat =
    Some (mkSource 0 (startOf playing 3) (1 # 2) true false) ∧
  activeSourcesRef (final r) = [] ∧
  nextStartTimeRef (final r) = 0.
Proof.
  exact (chunk_with_interruption (Blob:=nat) decodeAudio playing 0
           (mkMessage (Some "late") true) "late" (1 # 2) 3
           eq_refl eq_refl eq_refl eq_refl).
Defined.

Lemma empty_payload_ignored_witness :
  EmptyString = EmptyString ∧
  onmessage (Blob:=nat) decodeAudio 0 (mkMessage (Some EmptyString) true)
    3 playing
  = handleInterruption (mkMessage (Some EmptyString) true) playing.
Proof.
  exact (empty_payload_ignored (Blob:=nat) decodeAudio playing 0
           (mkMessage (Some EmptyString) true) EmptyString 3
           eq_refl eq_refl).
Defined.

Lemma ended_removes_only_itself_witness :
  activeSourcesRef (final (sourceEnds (Blob:=nat) 5 playing))
  = activeSourcesRef playing.
Proof.
  apply (ended_removes_only_itself (Blob:=nat) playing 5).
  intros Hin%list_elem_of_singleton. discriminate Hin.
Defined.

Lemma interruption_idempotent_witness :
  let s1 := final (handleInterruption (Blob:=nat) (mkMessage None true)
                     playing) in
  handleInterruption (Blob:=nat) (mkMessage None true) s1 =
    mkResult Returned s1 [ConsoleLog "Interrupted by user"].
Proof.
  exact (interruption_idempotent (Blob:=nat) playing (mkMessage None true)
           eq_refl).
Defined.

Lemma failed_connect_witness :
  let r := connect (Blob:=nat) "Kore" true false 0 0 initial in
  isConnecting (state (final r)) = false ∧
  pipelines (final r) = [] ∧
  error (state (final r))
    = Some "Failed to access microphone or connect."%string.
Proof.
  pose proof (failed_connect_creates_nothing (Blob:=nat) (T:=Q) initial
                "Kore" true false 0 0 (or_intror eq_refl))
    as (_ & _ & _ & Hconnecting & _ & Hpipelines & _).
  split_and!; [by apply Hconnecting|exact Hpipelines|reflexivity].
Defined.

(** The payload ["bad"] makes [onmessage] fail on the playing session. *)
Lemma handlers_fail_only_when_witness :
  (∃ p message currentTime payload,
     OnMessage 0 (audioMessage "bad") 3 = OnMessage p message currentTime ∧
     inlineData message = Some payload ∧
     truthy payload = true ∧
     decodeAudio payload = None) ∨
  ((OnMessage 0 (audioMessage "bad") 3 = Disconnect ∨
    (∃ p, OnMessage 0 (audioMessage "bad") 3 = OnClose p) ∨
    (∃ p, OnMessage 0 (audioMessage "bad") 3 = OnError p)) ∧
   ¬ refsRunning playing).
Proof.
  exact (handlers_fail_only_when createPcmBlob decodeAudio playing
           (OnMessage 0 (audioMessage "bad") 3) eq_refl).
Defined.

(** [disconnect] on the playing session. *)
Lemma disconnect_silences_witness :
  let s' := final (disconnect (Blob:=nat) playing) in
  (∀ q inputData, audioContextRef playing = Some q →
     enabled s' (AudioProcess q inputData) = false) ∧
  (∀ n vin vout, animationFrameRef playing = Some (S n) →
     enabled s' (AnimationFrame (S n) vin vout) = false) ∧
  audioContextRef s' = None ∧
  outputContextRef s' = None ∧
  activeSourcesRef s' = [] ∧
  volumes s' = mkAudioVolumeState 0 0 ∧
  isConnected (state s') = false ∧
  isConnecting (state s') = false ∧
  (∀ q, audioContextRef playing ≠ Some q →
        outputContextRef playing ≠ Some q →
     pipelines s' !! q = pipelines playing !! q).
Proof.
  exact (disconnect_silences_designated (Blob:=nat) playing
           playing_refsRunning).
Defined.

Lemma connecting_refsRunning : refsRunning connecting.
Proof.
  split; intros p [= <-]; exists (mkPipeline true true true false);
    by split.
Defined.

(** [disconnect] is called while the session is connecting, and the
    transport then reports [onopen]. *)
Lemma late_open_witness :
  let s' := final (onopen (Blob:=nat) 0
                     (final (disconnect (Blob:=nat) connecting))) in
  isConnected (state s') = true ∧
  isConnecting (state s') = false ∧
  audioContextRef s' = None ∧
  outputContextRef s' = None ∧
  ∀ inputData, enabled s' (AudioProcess 0 inputData) = false.
Proof.
  exact (late_open_after_disconnect (Blob:=nat) connecting 0 0
           connecting_refsRunning eq_refl).
Defined.

End MoreScenarioChecks.

(** * Properties of the text chat *)

Section ChatFacts.
Import ChatApp.
Variable processKey viteKey : option string.
Variable trim : string → string.
Variable toString : N → string.

Local Abbreviation handle := (ChatApp.handle processKey viteKey trim toString).
Local Abbreviation run := (ChatApp.run processKey viteKey trim toString).
Local Abbreviation handleSendMessage :=
  (ChatApp.handleSendMessage processKey viteKey trim toString).

(** X12: [getApiKey] yields a key only when that key is truthy and is one of the
    two environment entries; a truthy [process.env.API_KEY] wins over the
    Vite entry, and without a truthy entry the result is undefined. *)
Theorem getApiKey_truthy :
  (∀ key, getApiKey processKey viteKey = Some key →
     truthy key = true ∧ (processKey = Some key ∨ viteKey = Some key)) ∧
  (∀ key, processKey = Some key → truthy key = true →
     getApiKey processKey viteKey = Some key) ∧
  ((∀ key, processKey = Some key → truthy key = false) →
   (∀ key, viteKey = Some key → truthy key = false) →
   getApiKey processKey viteKey = None).
Proof.
  unfold getApiKey. split_and!.
  - intros key.
    destruct processKey as [k|]; [destruct (truthy k) eqn:Hk|];
      (destruct viteKey as [k'|]; [destruct (truthy k') eqn:Hk'|]);
      intros [= <-] || intros [=]; auto.
  - intros key -> Hkey. by rewrite Hkey.
  - intros Hp Hv.
    destruct processKey as [k|];
      [rewrite (Hp k eq_refl)|];
      (destruct viteKey as [k'|]; [by rewrite (Hv k' eq_refl)|done]).
Qed.

(** X13: One exchange: with a chat at hand, a non-blank input and no request
    in flight, submitting appends the user's trimmed text, empties the input,
    raises the loading flag and sends the trimmed text once; when the request
    settles, resolved or rejected, exactly one model message with a
    non-empty text is appended and the loading flag is lowered. *)
Theorem exchange_appends_two a now result now' :
  chatRef a = true →
  truthy (trim (inputText a)) = true →
  isLoading a = false →
  let sent := handleSendMessage now a in
  let settled := settle toString result now' sent.1 in
  sent.2 = [SendMessage (trim (inputText a))] ∧
  inputText sent.1 = EmptyString ∧
  isLoading sent.1 = true ∧
  isLoading settled.1 = false ∧
  inFlight settled.1 = inFlight a ∧
  ∃ reply,
    messages settled.1 =
      (messages a ++
         [mkMessage (toString now) user (trim (inputText a)); reply])%list ∧
    role reply = model ∧ truthy (text reply) = true.
Proof.
  intros Hchat Hinput Hload. cbn zeta. unfold ChatApp.handleSendMessage.
  rewrite Hchat, Hinput, Hload. cbn.
  destruct result as [responseText|]; cbn.
  - split_and!; try done. eexists. rewrite <- app_assoc. cbn.
    split_and!; [done|done|]. cbn. unfold orListening.
    destruct responseText as [t|]; [|done].
    by destruct (truthy t) eqn:Ht.
  - split_and!; try done. eexists. rewrite <- app_assoc. cbn.
    by split_and!.
Qed.

Lemma handle_messages e a :
  ∃ more, messages (handle e a).1 = (messages a ++ more)%list.
Proof.
  destruct e; cbn.
  - unfold initEffect. destruct (getApiKey _ _); [destruct created|];
      cbn; eauto using app_nil_r.
    all: exists []; by rewrite app_nil_r.
  - exists []. by rewrite app_nil_r.
  - unfold ChatApp.handleSendMessage.
    destruct (negb _ || _); [exists []; by rewrite app_nil_r|].
    destruct (negb (chatRef a)); [|by eexists].
    destruct (getApiKey _ _); [by eexists|exists []; by rewrite app_nil_r].
  - destruct result; by eexists.
Qed.

(** X14: The conversation is append-only: whatever events follow, the messages
    shown so far stay, in order, at the front of the list. *)
Theorem messages_append_only es a a' calls :
  run a es = Some (a', calls) →
  ∃ more, messages a' = (messages a ++ more)%list.
Proof.
  revert a calls. induction es as [|e es IH]; intros a calls Hrun;
    cbn in Hrun.
  - injection Hrun as <- _. exists []. by rewrite app_nil_r.
  - destruct (enabled a e); [|done].
    destruct (ChatApp.run _ _ _ _ _ es) as [[a1 calls1]|] eqn:Hrest; [|done].
    injection Hrun as <- _.
    destruct (IH _ _ Hrest) as [more1 ->].
    destruct (handle_messages e a) as [more0 ->].
    exists (more0 ++ more1)%list. by rewrite app_assoc.
Qed.

Lemma run_chat_invariant (I : App → Prop) (P : Call → Prop) es a a' calls :
  (∀ a e, I a → enabled a e = true →
     I (handle e a).1 ∧ Forall P (handle e a).2) →
  I a →
  run a es = Some (a', calls) →
  I a' ∧ Forall P calls.
Proof.
  intros Hstep. revert a calls.
  induction es as [|e es IH]; intros a calls Ha Hrun; cbn in Hrun.
  - by injection Hrun as <- <-.
  - destruct (enabled a e) eqn:Hen; [|done].
    destruct (ChatApp.run _ _ _ _ _ es) as [[a1 calls1]|] eqn:Hrest; [|done].
    injection Hrun as <- <-.
    destruct (Hstep a e Ha Hen) as [Ha1 Hcalls].
    destruct (IH _ _ Ha1 Hrest) as [Ha' Hcalls1].
    split; [done|]. by apply Forall_app.
Qed.

(** X15: At most one request is in flight: in every state reached from the
    initial one the loading flag is up exactly when one [sendMessage]
    promise is unsettled, and down exactly when none is; a submit while the
    flag is up sends nothing. *)
Theorem one_request_in_flight es a' calls :
  run initialApp es = Some (a', calls) →
  ((isLoading a' = true ∧ inFlight a' = 1) ∨
   (isLoading a' = false ∧ inFlight a' = 0)) ∧
  (isLoading a' = true → ∀ now, handleSendMessage now a' = (a', [])).
Proof.
  intros Hrun.
  assert (loadingInv a' ∧ Forall (λ _, True) calls) as [Hinv _].
  { apply (run_chat_invariant loadingInv (λ _, True) es initialApp a' calls);
      [|by right|done].
    intros a e Ha Hen. split; [|by apply Forall_forall].
    destruct e; cbn.
    - unfold initEffect. destruct (getApiKey _ _); [destruct created|]; done.
    - done.
    - unfold ChatApp.handleSendMessage.
      destruct Ha as [[Hl Hf]|[Hl Hf]]; rewrite Hl.
      + rewrite orb_true_r. by left.
      + rewrite orb_false_r.
        destruct (negb (truthy _)); [by right|].
        destruct (negb (chatRef a)).
        * destruct (getApiKey _ _); by right.
        * left. cbn. by rewrite Hf.
    - cbn in Hen. destruct Ha as [[Hl Hf]|[Hl Hf]];
        [|by rewrite Hf in Hen].
      destruct result; right; cbn; by rewrite Hf. }
  split; [done|]. intros Hl now. unfold ChatApp.handleSendMessage.
  by rewrite Hl, orb_true_r.
Qed.

(** X16: Without a truthy API key in the environment no chat is ever created
    and nothing is ever sent, whatever the user types and submits. *)
Theorem no_key_never_sends es a' calls :
  getApiKey processKey viteKey = None →
  run initialApp es = Some (a', calls) →
  chatRef a' = false ∧
  Forall (λ c, c ≠ ChatsCreate ∧ isSendMessage c = false) calls.
Proof.
  intros Hkey Hrun.
  apply (run_chat_invariant (λ a, chatRef a = false)
           (λ c, c ≠ ChatsCreate ∧ isSendMessage c = false)
           es initialApp a' calls); [|done|done].
  intros a e Ha _. destruct e; cbn.
  - unfold initEffect. by rewrite Hkey.
  - done.
  - unfold ChatApp.handleSendMessage. rewrite Ha, Hkey. cbn.
    by destruct (negb _ || _).
  - destruct result; cbn; [done|]. split; [done|].
    by repeat constructor.
Qed.

(** X17: What is sent is never blank: every message passed to [sendMessage] is
    a trimmed input that is not the empty string. *)
Theorem never_sends_blank es a a' calls message :
  run a es = Some (a', calls) →
  SendMessage message ∈ calls →
  truthy message = true ∧ ∃ input, message = trim input.
Proof.
  intros Hrun Hin.
  assert (True ∧ Forall (λ c, ∀ m, c = SendMessage m →
            truthy m = true ∧ ∃ input, m = trim input) calls) as [_ Hall].
  { apply (run_chat_invariant (λ _, True) _ es a a' calls); [|done|done].
    intros a0 e _ _. split; [done|]. destruct e; cbn.
    - unfold initEffect. destruct (getApiKey _ _); [destruct created|];
        by repeat constructor.
    - done.
    - unfold ChatApp.handleSendMessage.
      destruct (truthy (trim (inputText a0))) eqn:Ht; cbn; [|done].
      destruct (isLoading a0); [done|].
      destruct (negb (chatRef a0)).
      + by destruct (getApiKey _ _).
      + constructor; [|constructor].
        intros m' [= <-]. eauto.
    - destruct result; by repeat constructor. }
  rewrite Forall_forall in Hall. by apply (Hall _ Hin).
Qed.

Lemma length_filter_snoc {A} (P : A → Prop) `{∀ x, Decision (P x)}
    (l : list A) (x : A) :
  length (filter P (l ++ [x])%list) =
  length (filter P l) + (if decide (P x) then 1 else 0).
Proof.
  rewrite filter_app, length_app. f_equal.
  rewrite filter_cons. by destruct (decide (P x)).
Qed.

Lemma handle_user_messages e a :
  length (filter (λ m, isUserMessage m = true) (messages (handle e a).1)) =
  length (filter (λ m, isUserMessage m = true) (messages a)) +
  length (filter (λ c, isSendMessage c = true) (handle e a).2).
Proof.
  destruct e; cbn [ChatApp.handle].
  - unfold initEffect. destruct (getApiKey _ _); [destruct created|];
      cbn [fst snd messages appendMessage];
      rewrite ?length_filter_snoc, ?filter_cons, ?filter_nil;
      repeat (destruct (decide _) as [[=]|?]); cbn; lia.
  - cbn. lia.
  - unfold ChatApp.handleSendMessage.
    destruct (negb _ || _); [cbn; lia|].
    destruct (negb (chatRef a)).
    + destruct (getApiKey _ _); cbn [fst snd messages appendMessage];
        rewrite ?length_filter_snoc, ?filter_nil;
        repeat (destruct (decide _) as [[=]|?]); cbn; lia.
    + cbn [fst snd messages].
      rewrite length_filter_snoc, filter_cons, filter_nil.
      repeat (destruct (decide _) as [?|Hn]; [|by destruct Hn]). cbn. lia.
  - destruct result; cbn [settle fst snd messages];
      rewrite length_filter_snoc, ?filter_cons, ?filter_nil;
      repeat (destruct (decide _) as [[=]|?]); cbn; lia.
Qed.

(** X18: The user's messages shown are exactly the messages sent: in every
    state reached from the initial one there are as many messages of role
    user as there were [sendMessage] calls. *)
Theorem user_messages_are_sent es a' calls :
  run initialApp es = Some (a', calls) →
  length (filter (λ m, isUserMessage m = true) (messages a')) =
  length (filter (λ c, isSendMessage c = true) calls).
Proof.
  assert (∀ a, run a es = Some (a', calls) →
            length (filter (λ m, isUserMessage m = true) (messages a')) =
            length (filter (λ m, isUserMessage m = true) (messages a)) +
            length (filter (λ c, isSendMessage c = true) calls)) as Hgen.
  { revert calls. induction es as [|e es IH]; intros calls a Hrun;
      cbn in Hrun.
    - injection Hrun as <- <-. cbn. lia.
    - destruct (enabled a e); [|done].
      destruct (ChatApp.run _ _ _ _ _ es) as [[a1 calls1]|] eqn:Hrest;
        [|done].
      injection Hrun as <- <-.
      rewrite (IH _ _ Hrest), handle_user_messages.
      rewrite filter_app, length_app. lia. }
  intros Hrun. by rewrite (Hgen _ Hrun).
Qed.

End ChatFacts.

(** ** The properties on the concrete conversation *)

Section ChatScenarioChecks.
Import ChatApp ChatScenario.

Lemma run_conversation :
  ChatApp.run (Some "key") None trim toString initialApp conversation
  = Some (afterConversation, [ChatsCreate; SendMessage "hello"]).
Proof. vm_compute. reflexivity. Defined.

Lemma getApiKey_truthy_witness :
  truthy "key" = true ∧ (Some "key" = Some "key" ∨ None = Some "key").
Proof.
  pose proof (getApiKey_truthy (Some "key") None) as (Hkey & _).
  exact (Hkey "key" eq_refl).
Defined.

Lemma exchange_appends_two_witness :
  let a := mkApp [initialMessage] "hello" false true 0 in
  let sent := ChatApp.handleSendMessage (Some "key") None trim toString
                1000 a in
  let settled := settle toString None 2000 sent.1 in
  sent.2 = [SendMessage "hello"] ∧
  inputText sent.1 = EmptyString ∧
  isLoading sent.1 = true ∧
  isLoading settled.1 = false ∧
  inFlight settled.1 = 0 ∧
  ∃ reply,
    messages settled.1 =
      ([initialMessage] ++ [mkMessage (toString 1000) user "hello"; reply])%list ∧
    role reply = model ∧ truthy (text reply) = true.
Proof.
  exact (exchange_appends_two (Some "key") None trim toString
           (mkApp [initialMessage] "hello" false true 0) 1000 None 2000
           eq_refl eq_refl eq_refl).
Defined.

Lemma messages_append_only_witness :
  ∃ more, messages afterConversation = (messages initialApp ++ more)%list.
Proof.
  exact (messages_append_only (Some "key") None trim toString conversation
           initialApp afterConversation _ run_conversation).
Defined.

Lemma one_request_in_flight_witness :
  ((isLoading afterConversation = true ∧ inFlight afterConversation = 1) ∨
   (isLoading afterConversation = false ∧ inFlight afterConversation = 0)) ∧
  (isLoading afterConversation = true →
   ∀ now, ChatApp.handleSendMessage (Some "key") None trim toString now
            afterConversation = (afterConversation, [])).
Proof.
  exact (one_request_in_flight (Some "key") None trim toString conversation
           afterConversation _ run_conversation).
Defined.

Lemma run_without_key :
  ChatApp.run None None trim toString initialApp
    [Mount true; Change "hello"; Submit 1000]
  = Some (mkApp [initialMessage;
                 mkMessage "system-error" model configurationMissing]
            "hello" false false 0, []).
Proof. vm_compute. reflexivity. Defined.

Lemma no_key_never_sends_witness :
  chatRef (mkApp [initialMessage;
                  mkMessage "system-error" model configurationMissing]
             "hello" false false 0) = false ∧
  Forall (λ c, c ≠ ChatsCreate ∧ isSendMessage c = false) [].
Proof.
  exact (no_key_never_sends None None trim toString _ _ _ eq_refl
           run_without_key).
Defined.

Lemma never_sends_blank_witness :
  truthy "hello" = true ∧ ∃ input, "hello" = trim input.
Proof.
  apply (never_sends_blank (Some "key") None trim toString conversation
           initialApp afterConversation _ "hello" run_conversation).
  apply elem_of_cons. right. apply list_elem_of_singleton. reflexivity.
Defined.

Lemma user_messages_are_sent_witness :
  length (filter (λ m, isUserMessage m = true) (messages afterConversation)) =
  length (filter (λ c, isSendMessage c = true)
            [ChatsCreate; SendMessage "hello"]).
Proof.
  exact (user_messages_are_sent (Some "key") None trim toString conversation
           afterConversation _ run_conversation).
Defined.

End ChatScenarioChecks.
